(** * fileWatcher: the trigger engine of [src/fileWatcher.py]

    A shallow embedding of the event collector ([MonitorAnyFileChange]), of
    the monitor set-up ([FilesWatcher._start_monitors]) and of the command
    pipeline ([FilesWatcher.start], [FilesWatcher._run_commands]), with the
    properties the specification states about them.

    Python dictionaries with string keys are [gmap string _], Python sets
    are [gset string], the YAML document of one source is an association
    list in document order, and the outside world (the shell, the
    file system, standard output) is an explicit trace of events. *)

From stdpp Require Import gmap strings list fin_maps.
From Stdlib Require Import Ascii ZArith Lia.


(** ** The library functions the program calls *)

(** *** [re.match]

    A pattern is kept by its abstract syntax. [matches_from r s] lists what
    is left of [s] after every way [r] can match at the start of [s];
    [re.match] succeeds when there is at least one. *)
Module Re.

Inductive regex : Type :=
| Eps                         (* the empty pattern *)
| Chr (c : ascii)             (* a literal character *)
| Dot                         (* [.]: any character but a newline *)
| Eos                         (* [$]: the end, or just before a final newline *)
| Cat (r1 r2 : regex)
| Alt (r1 r2 : regex)         (* [r1|r2] *)
| Star (r : regex).           (* [r*] *)

Definition newline : ascii := "010"%char.

Definition at_end (s : string) : bool :=
  match s with
  | "" => true
  | String c "" => bool_decide (c = newline)
  | _ => false
  end.

(** Iteration of [step] from [s]; every further round must consume
    something, so [String.length s] rounds are enough. *)
Fixpoint star_from (step : string → list string) (fuel : nat) (s : string)
  : list string :=
  s :: match fuel with
       | O => []
       | S fuel' =>
           flat_map
             (λ s', if String.length s' <? String.length s
                    then star_from step fuel' s' else [])
             (step s)
       end.

Fixpoint matches_from (r : regex) (s : string) : list string :=
  match r with
  | Eps => [s]
  | Chr c =>
      match s with
      | String c' s' => if bool_decide (c = c') then [s'] else []
      | "" => []
      end
  | Dot =>
      match s with
      | String c' s' => if bool_decide (c' = newline) then [] else [s']
      | "" => []
      end
  | Eos => if at_end s then [s] else []
  | Cat r1 r2 => flat_map (matches_from r2) (matches_from r1 s)
  | Alt r1 r2 => matches_from r1 s ++ matches_from r2 s
  | Star r' => star_from (matches_from r') (String.length s) s
  end.

(** [re.match(r, s)] is not [None]. *)
Definition re_match (r : regex) (s : string) : bool :=
  match matches_from r s with [] => false | _ :: _ => true end.

(** The positions a search tries: every suffix of [s], the empty one
    included. *)
Fixpoint suffixes (s : string) : list string :=
  s :: match s with "" => [] | String _ s' => suffixes s' end.

(** [re.search(r, s)] is not [None]: the function the program does not
    call, kept to compare with [re_match]. *)
Definition re_search (r : regex) (s : string) : bool :=
  existsb (re_match r) (suffixes s).

(** A literal word as a pattern. *)
Fixpoint lit (w : string) : regex :=
  match w with
  | "" => Eps
  | String c w' => Cat (Chr c) (lit w')
  end.

(** What [matches_from] computes, as a relation: [Matches r s rest] when [r]
    matches [s] from its first character and stops with [rest] left. *)
Inductive Matches : regex → string → string → Prop :=
| M_Eps s : Matches Eps s s
| M_Chr c s : Matches (Chr c) (String c s) s
| M_Dot c s : c ≠ newline → Matches Dot (String c s) s
| M_Eos s : at_end s = true → Matches Eos s s
| M_Cat r1 r2 s s1 s2 :
    Matches r1 s s1 → Matches r2 s1 s2 → Matches (Cat r1 r2) s s2
| M_AltL r1 r2 s s1 : Matches r1 s s1 → Matches (Alt r1 r2) s s1
| M_AltR r1 r2 s s1 : Matches r2 s s1 → Matches (Alt r1 r2) s s1
| M_Star0 r s : Matches (Star r) s s
| M_StarS r s s1 s2 :
    Matches r s s1 → Matches (Star r) s1 s2 → Matches (Star r) s s2.

End Re.

(** *** [str.replace] *)
Module Str.

Fixpoint starts_with (p s : string) : bool :=
  match p, s with
  | "", _ => true
  | String a p', String b s' => bool_decide (a = b) && starts_with p' s'
  | String _ _, "" => false
  end.

(** [replace_from old new s skip]: the scan of [s] from left to right,
    with [skip] characters of a replaced occurrence still to pass. *)
Fixpoint replace_from (old new s : string) (skip : nat) : string :=
  match s with
  | "" => ""
  | String c s' =>
      match skip with
      | S k => replace_from old new s' k
      | O =>
          if starts_with old s
          then new +:+ replace_from old new s' (String.length old - 1)
          else String c (replace_from old new s' 0)
      end
  end.

(** [s.replace(old, new)] for a non-empty [old]: every occurrence met by
    the scan is replaced, the scan resuming after it. *)
Definition replace (old new s : string) : string :=
  replace_from old new s 0.

(** [tok] occurs somewhere in [s]. *)
Fixpoint occurs (tok s : string) : bool :=
  starts_with tok s
  || match s with
     | "" => false
     | String _ s' => occurs tok s'
     end.

(** No occurrence of [tok] in [p] followed by [tok] starts inside [p]: the
    first one is the [tok] that follows. *)
Fixpoint free_before (tok p : string) : bool :=
  match p with
  | "" => true
  | String _ p' => negb (starts_with tok (p +:+ tok)) && free_before tok p'
  end.

(** The pieces with [sep] after each, then [last]. *)
Definition join (sep : string) (pieces : list string) (last : string)
  : string :=
  fold_right (λ p acc, p +:+ sep +:+ acc) last pieces.

End Str.

(** ** The data model *)

(** A YAML field that holds one string or a list of strings. *)
Inductive strs : Type :=
| Str (s : string)
| Strs (l : list string).

(** One entry of [searches]: a dictionary read at the keys [name], [paths]
    and [patterns] only; a key that is absent is [None]. *)
Record search_defn : Type := {
  name : option string;
  paths : option strs;
  patterns : option (list Re.regex)
}.

(** The value at a key of a monitor definition: a string, a list of
    strings, a list of search dictionaries (the empty list is written
    either way, and is read the same), or one dictionary with string keys,
    kept by its keys in document order: the program never reads what is
    under them. A
    monitor definition is a dictionary of such values,
    [gmap string value]. *)
Inductive value : Type :=
| VStr (s : string)
| VList (l : list string)
| VSearches (l : list search_defn)
| VMapping (keys : list string).

(** The events of the observer. *)
Inductive event_kind : Type := created | deleted | modified | moved.

Record ChangeEvent : Type := {
  src_path : string;
  kind : event_kind
}.

(** The event handler object, [class MonitorAnyFileChange]. *)
Record MonitorAnyFileChange : Type := {
  _path : string;
  monitor_defn : gmap string value;
  _monitor : search_defn;
  _files : gset string
}.

(** The command line, [process_args]. *)
Record Args : Type := {
  args_paths : list string;
  repeat : bool;
  exit_on_error : bool;
  skip_file : option string
}.

(** [class FilesWatcher]; [observer] is the list of scheduled paths. *)
Record FilesWatcher : Type := {
  args : Args;
  event_handlers : list MonitorAnyFileChange;
  _monitor_defns_defaults : gmap string value;
  observer : list string
}.

(** ** The collector: [MonitorAnyFileChange] *)

Definition new_handler (path : string) (defn : gmap string value)
    (monitor : search_defn) : MonitorAnyFileChange :=
  {| _path := path; monitor_defn := defn; _monitor := monitor; _files := ∅ |}.

(** [self._files.add(p)] *)
Definition add_file (p : string) (self : MonitorAnyFileChange)
  : MonitorAnyFileChange :=
  {| _path := _path self; monitor_defn := monitor_defn self;
     _monitor := _monitor self; _files := {[p]} ∪ _files self |}.

(** [len(self._files) > 0] *)
Definition has_change (self : MonitorAnyFileChange) : bool :=
  bool_decide (0 < size (_files self)).

Definition get_files (self : MonitorAnyFileChange) : gset string :=
  _files self.

(** The loop [for file_extension in self._monitor['patterns']], left at the
    first pattern that matches. *)
Fixpoint for_patterns (pats : list Re.regex) (event : ChangeEvent)
    (self : MonitorAnyFileChange) : MonitorAnyFileChange :=
  match pats with
  | [] => self
  | file_extension :: rest =>
      if Re.re_match file_extension (src_path event)
      then add_file (src_path event) self
      else for_patterns rest event self
  end.

Definition _handle_event (self : MonitorAnyFileChange) (event : ChangeEvent)
  : MonitorAnyFileChange :=
  match patterns (_monitor self) with
  | Some pats => for_patterns pats event self
  | None =>
      if bool_decide (src_path event ≠ "")
      then add_file (src_path event) self
      else self
  end.

Definition on_created := _handle_event.
Definition on_deleted := _handle_event.
Definition on_modified := _handle_event.
Definition on_moved := _handle_event.

(** The observer hands an event to the method of its kind. *)
Definition dispatch (self : MonitorAnyFileChange) (event : ChangeEvent)
  : MonitorAnyFileChange :=
  match kind event with
  | created => on_created self event
  | deleted => on_deleted self event
  | modified => on_modified self event
  | moved => on_moved self event
  end.

(** ** Effects

    What the program does to the outside is a trace: lines printed, calls
    of [_run_commands] with their two arguments, and commands handed to the
    shell. A computation takes the trace so far and returns a value or the
    exception raised, with the trace extended. *)

Inductive io : Type :=
| Print (msg : string)
| Call (defn : gmap string value) (commands_key : string)
| Exec (command : string).

Inductive exn : Type :=
| KeyError (key : string)
| KeyErrorInt (key : Z)
| IndexError
| TypeError
| AttributeError
| FileNotFoundError
| SystemExit (code : Z).

Inductive result (A : Type) : Type :=
| Ok (a : A)
| Raise (e : exn).
Arguments Ok {A} a.
Arguments Raise {A} e.

Definition M (A : Type) : Type := list io → result A * list io.

#[export] Instance M_ret : MRet M := λ A a st, (Ok a, st).

#[export] Instance M_bind : MBind M := λ A B f m st,
  match m st with
  | (Ok a, st') => f a st'
  | (Raise e, st') => (Raise e, st')
  end.

Definition raise {A : Type} (e : exn) : M A := λ st, (Raise e, st).

Definition emit (e : io) : M unit := λ st, (Ok tt, st ++ [e]).

Definition print (msg : string) : M unit := emit (Print msg).

(** The lines printed, the calls made and the commands run, in order. *)
Definition printed (tr : list io) : list string :=
  omap (λ e, match e with Print m => Some m | _ => None end) tr.

Definition calls (tr : list io) : list (gmap string value * string) :=
  omap (λ e, match e with Call d k => Some (d, k) | _ => None end) tr.

Definition execs (tr : list io) : list string :=
  omap (λ e, match e with Exec c => Some c | _ => None end) tr.

(** ** [class FilesWatcher] *)

Definition MONITOR_NAME : string := "_MONITOR_NAME_".

Definition set_handlers (hs : list MonitorAnyFileChange) (ws : list string)
    (self : FilesWatcher) : FilesWatcher :=
  {| args := args self; event_handlers := hs;
     _monitor_defns_defaults := _monitor_defns_defaults self;
     observer := ws |}.

Definition set_defaults (d : gmap string value) (self : FilesWatcher)
  : FilesWatcher :=
  {| args := args self; event_handlers := event_handlers self;
     _monitor_defns_defaults := d; observer := observer self |}.

(** [_add_monitor]: a new handler, scheduled on [path] and appended. *)
Definition _add_monitor (path : string) (defn : gmap string value)
    (monitor : search_defn) (self : FilesWatcher) : FilesWatcher :=
  set_handlers (event_handlers self ++ [new_handler path defn monitor])
               (observer self ++ [path]) self.

(** [if isinstance(x, str): x = [x]] *)
Definition as_list (x : strs) : list string :=
  match x with
  | Str s => [s]
  | Strs l => l
  end.

(** Lines 216 to 218: the defaults in force, overridden key by key by the
    definition, then [__name] and [__key]. *)
Definition merge_defn (defaults : gmap string value) (source defn_name : string)
    (defn : gmap string value) : gmap string value :=
  <["__key" := VStr (source +:+ ":" +:+ defn_name)]>
    (<["__name" := VStr defn_name]> (defn ∪ defaults)).

(** Lines 221 to 225: [searches] brought to a list of search definitions.
    On one dictionary [searches[0]] looks up the key [0], which a
    dictionary with string keys does not have. *)
Definition get_searches (defn : gmap string value) : M (list search_defn) :=
  match defn !! "searches" with
  | None => raise (KeyError "searches")
  | Some (VStr s) =>
      mret [ {| name := None; paths := Some (Strs [s]); patterns := None |} ]
  | Some (VList []) => raise IndexError
  | Some (VList (s :: l)) =>
      mret [ {| name := None; paths := Some (Strs (s :: l)); patterns := None |} ]
  | Some (VSearches []) => raise IndexError
  | Some (VSearches (s :: l)) => mret (s :: l)
  | Some (VMapping _) => raise (KeyErrorInt 0)
  end.

Section Program.

(** The world the program runs in: the exit code of a command given what
    happened before it, the expansion of a glob, the files that exist, the
    content of a YAML file, and whether the observer can start on the
    scheduled paths. *)
Variable sh : list io → string → Z.
Variable iglob : string → list string.
Variable path_exists : string → bool.
Variable load_yaml : string → option (list (string * gmap string value)).
Variable observer_start : list string → bool.

(** [subprocess.run(command, shell=True).returncode] *)
Definition subprocess_run (command : string) : M Z :=
  λ st, (Ok (sh st command), st ++ [Exec command]).

(** The loop of [_run_commands], lines 313 to 318. *)
Fixpoint for_commands (defn : gmap string value) (commands : list string)
  : M Z :=
  match commands with
  | [] => mret 0%Z
  | command :: rest =>
      match defn !! "__name" with
      | None => raise (KeyError "__name")
      | Some (VStr defn_name) =>
          let command := Str.replace MONITOR_NAME defn_name command in
          res ← subprocess_run command;
          if bool_decide (res ≠ 0%Z) then mret res
          else for_commands defn rest
      | Some _ => raise TypeError
      end
  end.

Definition _run_commands (defn : gmap string value) (commands_key : string)
  : M Z :=
  emit (Call defn commands_key);;
  match defn !! commands_key with
  | Some (VStr command) => for_commands defn [command]
  | Some (VList commands) => for_commands defn commands
  | Some (VSearches []) => mret 0%Z
  | Some (VSearches (_ :: _)) => raise AttributeError
  | Some (VMapping keys) => for_commands defn keys
  | None => mret 0%Z
  end.

(** The two loops of lines 233 to 236 over the globs of one search; the
    flag is [found_path]. *)
Definition for_glob (defn : gmap string value) (search : search_defn)
    (acc : FilesWatcher * bool) (path_glob : string) : FilesWatcher * bool :=
  fold_left (λ a path, (_add_monitor path defn search a.1, true))
            (iglob path_glob) acc.

Definition for_globs (defn : gmap string value) (search : search_defn)
    (globs : list string) (self : FilesWatcher) : FilesWatcher * bool :=
  fold_left (for_glob defn search) globs (self, false).

(** The body of [for search_defn in searches], lines 227 to 242. After the
    loop [path_glob] is the last glob of the list, and [i_glob] is [None]
    exactly when the list is empty. *)
Definition for_search (defn : gmap string value) (search : search_defn)
    (self : FilesWatcher) : M FilesWatcher :=
  match paths search with
  | None => raise (KeyError "paths")
  | Some ps =>
      let globs := as_list ps in
      let '(self', found_path) := for_globs defn search globs self in
      match last globs with
      | Some path_glob =>
          if negb found_path then
            print ("ERROR: No glob expansion for: " +:+ path_glob +:+ ".");;
            if exit_on_error (args self) then raise (SystemExit 1)
            else mret self'
          else mret self'
      | None => mret self'
      end
  end.

Fixpoint for_searches (defn : gmap string value) (searches : list search_defn)
    (self : FilesWatcher) : M FilesWatcher :=
  match searches with
  | [] => mret self
  | search :: rest =>
      self' ← for_search defn search self;
      for_searches defn rest self'
  end.

(** The loop over the definitions of one source, lines 210 to 242. *)
Fixpoint for_defns (source : string)
    (monitor_defns : list (string * gmap string value)) (self : FilesWatcher)
  : M FilesWatcher :=
  match monitor_defns with
  | [] => mret self
  | (defn_name, defn) :: rest =>
      if bool_decide (defn_name = "__defaults__")
      then for_defns source rest (set_defaults defn self)
      else
        let defn := merge_defn (_monitor_defns_defaults self) source defn_name defn in
        searches ← get_searches defn;
        self' ← for_searches defn searches self;
        for_defns source rest self'
  end.

Definition _start_monitors (source : string)
    (monitor_defns : list (string * gmap string value)) (self : FilesWatcher)
  : M FilesWatcher :=
  for_defns source monitor_defns (set_defaults ∅ self).

Fixpoint for_yaml_files (files : list string) (self : FilesWatcher)
  : M FilesWatcher :=
  match files with
  | [] => mret self
  | yaml_file :: rest =>
      match load_yaml yaml_file with
      | None => raise FileNotFoundError
      | Some monitor_defns =>
          self' ← _start_monitors yaml_file monitor_defns self;
          for_yaml_files rest self'
      end
  end.

Definition _setup_observers (self : FilesWatcher) : M FilesWatcher :=
  let self := set_handlers [] [] self in
  print "Monitoring:";;
  self' ← for_yaml_files (args_paths (args self)) self;
  if observer_start (observer self') then mret self'
  else if exit_on_error (args self') then raise (SystemExit 1)
  else mret self'.

(** Line 282. *)
Definition has_skip_file (a : Args) : bool :=
  match skip_file a with
  | None => false
  | Some f => if bool_decide (f = "") then false else path_exists f
  end.

(** Lines 293 to 301: what is run for a definition that fires. *)
Definition run_pipeline (skip : bool) (monitor_key : string)
    (defn : gmap string value) : M unit :=
  if skip then
    _run_commands defn "skipped";; mret tt
  else
    print ("Executing " +:+ monitor_key);;
    res ← _run_commands defn "commands";
    _run_commands defn (if bool_decide (res = 0%Z) then "completed" else "error");;
    print "".

(** The loop of lines 285 to 301 over the handlers; [triggered] is
    [triggered_monitor_defn_keys], returned as it is when the loop ends. *)
Fixpoint for_handlers (skip : bool) (handlers : list MonitorAnyFileChange)
    (triggered : gset string) : M (gset string) :=
  match handlers with
  | [] => mret triggered
  | event_handler :: rest =>
      if has_change event_handler then
        match monitor_defn event_handler !! "__key" with
        | None => raise (KeyError "__key")
        | Some (VStr monitor_key) =>
            if bool_decide (monitor_key ∈ triggered)
            then for_handlers skip rest triggered
            else
              run_pipeline skip monitor_key (monitor_defn event_handler);;
              for_handlers skip rest ({[monitor_key]} ∪ triggered)
        | Some _ => raise TypeError
        end
      else for_handlers skip rest triggered
  end.

(** The events the observer delivers while the program waits: each goes to
    the handler at an index of [event_handlers]. *)
Definition deliver (self : FilesWatcher) (d : nat * ChangeEvent)
  : FilesWatcher :=
  set_handlers (alter (λ h, dispatch h d.2) d.1 (event_handlers self))
               (observer self) self.

(** Lines 278 to 301, once the observer is stopped. *)
Definition run_triggered (self : FilesWatcher) : M (gset string) :=
  for_handlers (has_skip_file (args self)) (event_handlers self) ∅.

(** [start]: set-up, the events delivered until the observer is stopped,
    then the commands. The polling and the two sleeps are not modelled: the
    program leaves its waiting loop only once a handler has recorded a
    change, so deliveries that record nothing stand for a run that is
    still waiting, and the loop over the handlers then runs nothing. *)
Definition start (deliveries : list (nat * ChangeEvent)) (self : FilesWatcher)
  : M FilesWatcher :=
  self' ← _setup_observers self;
  let self'' := fold_left deliver deliveries self' in
  run_triggered self'';;
  mret self''.

End Program.

(** ** Vocabulary of the properties *)

(** The commands declared at a key of a definition, as [_run_commands]
    reads them: none when the key is absent, the keys when the value is a
    dictionary (the loop iterates over it), [None] when the value is a
    list of dictionaries, on which the loop raises. *)
Definition hook_list (defn : gmap string value) (key : string)
  : option (list string) :=
  match defn !! key with
  | None => Some []
  | Some (VStr c) => Some [c]
  | Some (VList l) => Some l
  | Some (VSearches []) => Some []
  | Some (VSearches (_ :: _)) => None
  | Some (VMapping keys) => Some keys
  end.

(** The exit code of the [i]-th command of [cmds], run after the ones
    before it, from the trace [st]. *)
Definition exit_code (sh : list io → string → Z) (st : list io)
    (cmds : list string) (i : nat) : Z :=
  match cmds !! i with
  | Some c => sh (st ++ map Exec (take i cmds)) c
  | None => 0%Z
  end.

(** [k] commands of [cmds] were run and the phase returned [rc]: all of
    them with every exit code zero and [rc = 0], or up to the first one
    whose exit code is not zero, which is [rc]. *)
Definition stops_at_first_failure (sh : list io → string → Z) (st : list io)
    (cmds : list string) (k : nat) (rc : Z) : Prop :=
  (∀ i, S i < k → exit_code sh st cmds i = 0%Z) ∧
  ((k = length cmds ∧ (∀ i, i < k → exit_code sh st cmds i = 0%Z) ∧ rc = 0%Z)
   ∨ (0 < k ≤ length cmds ∧ exit_code sh st cmds (k - 1) = rc ∧ rc ≠ 0%Z)).

(** The command as it reaches the shell. *)
Definition with_name (n : string) (command : string) : string :=
  Str.replace MONITOR_NAME n command.

(** The commands a call of [_run_commands] can hand to the shell: the
    declared ones under the definition's name, none when [__name] is not a
    string (the loop raises before it runs anything). *)
Definition shell_commands (defn : gmap string value) (key : string)
  : list string :=
  match defn !! "__name" with
  | Some (VStr n) => map (with_name n) (default [] (hook_list defn key))
  | _ => []
  end.

(** The trace of one call of [_run_commands] that ran [k] commands. *)
Definition run_block (defn : gmap string value) (key : string) (k : nat)
  : list io :=
  Call defn key :: map Exec (take k (shell_commands defn key)).

(** The key under which a definition fires. *)
Definition key_of (defn : gmap string value) : option string :=
  match defn !! "__key" with
  | Some (VStr k) => Some k
  | _ => None
  end.

(** The hook keys [_run_commands] was called with for the definitions of
    key [key], in the order of the calls. *)
Definition hooks_for (key : string) (tr : list io) : list string :=
  map snd (filter (λ c, key_of c.1 = Some key) (calls tr)).

(** The calls of at most one run of the pipeline: none, the [skipped]
    list, or [commands] followed by [completed] or by [error] (an exception
    in [commands] leaves [commands] alone). *)
Definition one_run : list (list string) :=
  [ []; ["skipped"]; ["commands"];
    ["commands"; "completed"]; ["commands"; "error"] ].

(** The hook keys the pipeline passes to [_run_commands]. *)
Definition pipeline_hooks : list string :=
  ["skipped"; "commands"; "completed"; "error"].

(** A computation that only prints. *)
Definition prints_only {A : Type} (m : M A) : Prop :=
  ∀ st, ∃ r ms, m st = (r, st ++ map Print ms).

(** A computation that, when it returns, returns a [FilesWatcher] with the
    command line of [self]. *)
Definition keeps_args (self : FilesWatcher) (m : M FilesWatcher) : Prop :=
  ∀ st self' st', m st = (Ok self', st') → args self' = args self.

(** The trace of calls of [_run_commands] on [skipped] alone, one for each
    definition of [runs], having run the given number of commands. *)
Definition skipped_blocks (runs : list (gmap string value * nat)) : list io :=
  flat_map (λ r, run_block r.1 "skipped" r.2) runs.

(** The defaults in force after the entries [pre] of a source, starting
    from [d0]: the last [__defaults__] entry met, if any. *)
Definition defaults_after (d0 : gmap string value)
    (pre : list (string * gmap string value)) : gmap string value :=
  fold_left (λ d nd, if bool_decide (nd.1 = "__defaults__") then nd.2 else d)
            pre d0.

(** A source starts with no defaults. *)
Definition defaults_in_force (pre : list (string * gmap string value))
  : gmap string value :=
  defaults_after ∅ pre.

(** The line printed for a search whose globs gave no path. *)
Definition glob_warning (path_glob : string) : string :=
  "ERROR: No glob expansion for: " +:+ path_glob +:+ ".".

(** The search accepts the path: one of its patterns matches from the
    first character of the path, or it has no patterns and the path is not
    empty. *)
Definition accepted (search : search_defn) (path : string) : Prop :=
  match patterns search with
  | Some pats => ∃ r rest, r ∈ pats ∧ Re.Matches r path rest
  | None => path ≠ ""
  end.

(** ** Sample inputs *)
Module Sample.

(** A shell in which only [false] fails. *)
Definition shell : list io → string → Z :=
  λ _ c, if bool_decide (c = "false") then 1%Z else 0%Z.

(** A file system with the directories [src], [lib] and [docs]. *)
Definition glob (g : string) : list string :=
  if bool_decide (g ∈ ["src"; "lib"; "docs"]) then [g] else [].

Definition file_exists (p : string) : bool := bool_decide (p = "tmp/skip").

Definition defaults : gmap string value :=
  {[ "skipped" := VStr "echo _MONITOR_NAME_ skipped";
     "started" := VStr "echo _MONITOR_NAME_ started";
     "completed" := VList ["false"; "echo done"];
     "error" := VStr "echo _MONITOR_NAME_ failed" ]}.

Definition build : gmap string value :=
  {[ "commands" := VList ["true"; "false"; "true"];
     "searches" := VList ["src"; "lib"] ]}.

(** The pattern [.*\.md$]. *)
Definition md_pattern : Re.regex :=
  Re.Cat (Re.Star Re.Dot) (Re.Cat (Re.lit ".md") Re.Eos).

(** The pattern [\.md$], which does not start with [.*]. *)
Definition md_suffix : Re.regex := Re.Cat (Re.lit ".md") Re.Eos.

Definition docs_search : search_defn :=
  {| name := Some "docs"; paths := Some (Str "docs");
     patterns := Some [md_pattern] |}.

Definition docs : gmap string value :=
  {[ "searches" := VSearches [docs_search] ]}.

(** [watch.yaml]: the defaults first, then two definitions. *)
Definition watch_yaml : list (string * gmap string value) :=
  [ ("__defaults__", defaults); ("build", build); ("docs", docs) ].

(** [late.yaml]: a definition, then the defaults. *)
Definition late_yaml : list (string * gmap string value) :=
  [ ("build", build); ("__defaults__", defaults) ].

Definition yaml (f : string) : option (list (string * gmap string value)) :=
  if bool_decide (f = "watch.yaml") then Some watch_yaml
  else if bool_decide (f = "late.yaml") then Some late_yaml
  else None.

Definition observer_ok (ws : list string) : bool := true.

Definition command_line (skip : option string) : Args :=
  {| args_paths := ["watch.yaml"]; repeat := false; exit_on_error := false;
     skip_file := skip |}.

Definition watcher (a : Args) : FilesWatcher :=
  {| args := a; event_handlers := []; _monitor_defns_defaults := ∅;
     observer := [] |}.

(** The definitions as [_start_monitors] builds them from [watch.yaml]. *)
Definition build_defn : gmap string value :=
  merge_defn defaults "watch.yaml" "build" build.

Definition docs_defn : gmap string value :=
  merge_defn defaults "watch.yaml" "docs" docs.

(** A change under [src] and one under [lib], both for [build], and a
    change of a page under [docs]. *)
Definition deliveries : list (nat * ChangeEvent) :=
  [ (0, {| src_path := "src/main.c"; kind := modified |});
    (1, {| src_path := "lib/util.c"; kind := created |});
    (2, {| src_path := "docs/index.md"; kind := modified |}) ].

(** The watcher as the set-up and the deliveries leave it. *)
Definition watching (skip : option string) : FilesWatcher :=
  match (_setup_observers glob yaml observer_ok (watcher (command_line skip)) []).1 with
  | Ok self => fold_left deliver deliveries self
  | Raise _ => watcher (command_line skip)
  end.

End Sample.

(** ** The specification's wording, where the program differs *)

(** "Whichever hook list runs is executed to completion": every command of
    a hook list the pipeline called, other than [commands], reached the
    shell. *)
Definition hook_runs_to_completion (sh : list io → string → Z)
    (key : string) (defn : gmap string value) (st : list io) : Prop :=
  let tr := (run_pipeline sh false key defn st).2 in
  ∀ hook, hook ∈ map snd (calls tr) → hook ≠ "commands" →
          ∀ c, c ∈ shell_commands defn hook → c ∈ execs tr.

(** "Every glob that yields zero matching paths is reported by a warning
    that names it." *)
Definition every_empty_glob_reported (iglob : string → list string)
    (defn : gmap string value) (search : search_defn) (self : FilesWatcher)
    (st : list io) : Prop :=
  ∀ ps g, paths search = Some ps → g ∈ as_list ps → iglob g = [] →
          glob_warning g ∈ printed (for_search iglob defn search self st).2.

(** "The defaults are merged into every other definition of the source":
    a handler made for the definition [n] has, at a key the definition does
    not set, the value of the defaults of the source. *)
Definition defaults_reach_every_definition (iglob : string → list string)
    (source : string) (defns : list (string * gmap string value))
    (self : FilesWatcher) : Prop :=
  ∀ dflt n d self' st' h k,
    ("__defaults__", dflt) ∈ defns → (n, d) ∈ defns → n ≠ "__defaults__" →
    _start_monitors iglob source defns self [] = (Ok self', st') →
    h ∈ event_handlers self' →
    monitor_defn h !! "__name" = Some (VStr n) →
    d !! k = None → k ≠ "__name" → k ≠ "__key" →
    monitor_defn h !! k = dflt !! k.

(** "With patterns, the path is recorded if and only if a pattern matches
    under search semantics, anywhere in the path." *)
Definition records_by_search (self : MonitorAnyFileChange)
    (event : ChangeEvent) : Prop :=
  ∀ pats, patterns (_monitor self) = Some pats →
    src_path event ∈ _files (dispatch self event)
    ↔ ∃ r, r ∈ pats ∧ Re.re_search r (src_path event) = true.

(** ** Vocabulary of the further properties *)

(** The keys in the order of their first occurrence. *)
Fixpoint first_occurrences (l : list string) : list string :=
  match l with
  | [] => []
  | k :: l' => k :: filter (λ k', k' ≠ k) (first_occurrences l')
  end.

(** The keys of the handlers that recorded a change, in the order of the
    handlers. *)
Definition changed_keys (hs : list MonitorAnyFileChange) : list string :=
  omap (λ h, key_of (monitor_defn h)) (filter (λ h, has_change h = true) hs).

(** The keys of the definitions whose pipeline was entered, read off the
    calls on [skipped] and on [commands], in the order of the calls. *)
Definition pipeline_entries (tr : list io) : list string :=
  omap (λ c : gmap string value * string,
          if bool_decide (c.2 = "skipped" ∨ c.2 = "commands")
          then key_of c.1 else None)
       (calls tr).

(** What no exception of a cycle is: a missing name or key of a
    definition, or an exit of the program outside the strict mode or with
    another code than 1. *)
Definition cycle_raises (strict : bool) (e : exn) : Prop :=
  e ≠ KeyError "__key" ∧ e ≠ KeyError "__name"
  ∧ ∀ code, e = SystemExit code → strict = true ∧ code = 1%Z.

(** A computation that raises nothing but what [E] allows. *)
Definition raises_only {A : Type} (E : exn → Prop) (m : M A) : Prop :=
  ∀ st e st', m st = (Raise e, st') → E e.

(** The handlers are the ones scheduled, in the same order, and none has
    recorded a path. *)
Definition freshly_scheduled (self : FilesWatcher) : Prop :=
  observer self = map _path (event_handlers self)
  ∧ Forall (λ h, _files h = ∅) (event_handlers self).

(** The definition of a handler has the name and the key of the set-up. *)
Definition named_handler (h : MonitorAnyFileChange) : Prop :=
  (∃ n, monitor_defn h !! "__name" = Some (VStr n))
  ∧ ∃ k, monitor_defn h !! "__key" = Some (VStr k).

(** The state a set-up leaves, on which a cycle rests. *)
Definition set_up (self : FilesWatcher) : Prop :=
  freshly_scheduled self ∧ Forall named_handler (event_handlers self).

(** A source whose name has no colon. *)
Definition colon_free (source : string) : Prop :=
  Str.occurs ":" source = false.

(** The four hook lists of a definition are strings or lists of strings
    where they are given. *)
Definition typed_hooks (defn : gmap string value) : Prop :=
  ∀ hook, hook ∈ pipeline_hooks → is_Some (hook_list defn hook).

(** The calls of [_run_commands] on [hook] for the definitions of [runs],
    one after the other from the trace [st]: each ran its commands up to
    the first that failed. *)
Fixpoint blocks_run (sh : list io → string → Z) (hook : string)
    (st : list io) (runs : list (gmap string value * nat)) : Prop :=
  match runs with
  | [] => True
  | r :: rest =>
      (∃ rc, stops_at_first_failure sh (st ++ [Call r.1 hook])
               (shell_commands r.1 hook) r.2 rc)
      ∧ blocks_run sh hook (st ++ run_block r.1 hook r.2) rest
  end.

(** "Every literal occurrence of the token is replaced by the name":
    wherever the token stands in the command, what is run is what is run
    of the part before it, the name, and what is run of the part after
    it. *)
Definition every_occurrence_replaced (n command : string) : Prop :=
  ∀ before after,
    command = before +:+ MONITOR_NAME +:+ after →
    with_name n command = with_name n before +:+ n +:+ with_name n after.

(** * Properties *)

(** ** [re.match] computes the relation *)

Lemma elem_of_flat_map {A B} (f : A → list B) (l : list A) (y : B) :
  y ∈ flat_map f l ↔ ∃ x, x ∈ l ∧ y ∈ f x.
Proof.
  rewrite list_elem_of_In, in_flat_map. split.
  - intros (x & Hx & Hy). exists x. by rewrite !list_elem_of_In.
  - intros (x & Hx & Hy). exists x. by rewrite <- !list_elem_of_In.
Qed.

(** A match leaves a suffix: what is left is no longer than the string,
    and as long only when nothing was consumed. *)
Lemma Matches_length r s rest :
  Re.Matches r s rest →
  String.length rest ≤ String.length s
  ∧ (String.length rest = String.length s → rest = s).
Proof.
  induction 1 as [s|c s|c s Hc|s Hend|r1 r2 s s1 s2 _ [IH1 IH1'] _ [IH2 IH2']
                 |r1 r2 s s1 _ IH|r1 r2 s s1 _ IH|r s
                 |r s s1 s2 _ [IH1 IH1'] _ [IH2 IH2']]; simpl;
    try (split; [lia|done || lia]); try done.
  - split; [lia|]. intros Hlen.
    assert (s1 = s) as -> by (apply IH1'; lia). by apply IH2'.
  - split; [lia|]. intros Hlen.
    assert (s1 = s) as -> by (apply IH1'; lia). by apply IH2'.
Qed.

Lemma star_from_sound step r :
  (∀ s rest, rest ∈ step s → Re.Matches r s rest) →
  ∀ fuel s rest, rest ∈ Re.star_from step fuel s → Re.Matches (Re.Star r) s rest.
Proof.
  intros Hstep. induction fuel as [|fuel IH]; intros s rest; simpl.
  - intros ->%list_elem_of_singleton. constructor.
  - intros [->|Hin]%elem_of_cons; [constructor|].
    apply elem_of_flat_map in Hin as (s1 & Hs1 & Hrest).
    destruct (String.length s1 <? String.length s);
      [|by apply elem_of_nil in Hrest].
    eapply Re.M_StarS; [by apply Hstep|by apply IH].
Qed.

Lemma matches_from_sound r :
  ∀ s rest, rest ∈ Re.matches_from r s → Re.Matches r s rest.
Proof.
  induction r as [|c| | |r1 IH1 r2 IH2|r1 IH1 r2 IH2|r IH]; intros s rest; simpl.
  - intros ->%list_elem_of_singleton. constructor.
  - destruct s as [|c' s]; [by intros ?%elem_of_nil|].
    case_bool_decide as Hc; [|by intros ?%elem_of_nil].
    intros ->%list_elem_of_singleton. subst c'. constructor.
  - destruct s as [|c' s]; [by intros ?%elem_of_nil|].
    case_bool_decide as Hc; [by intros ?%elem_of_nil|].
    intros ->%list_elem_of_singleton. by constructor.
  - destruct (Re.at_end s) eqn:Hend; [|by intros ?%elem_of_nil].
    intros ->%list_elem_of_singleton. by constructor.
  - intros (s1 & Hs1 & Hrest)%elem_of_flat_map.
    eapply Re.M_Cat; [by apply IH1|by apply IH2].
  - intros [?|?]%elem_of_app; [apply Re.M_AltL|apply Re.M_AltR]; auto.
  - by apply star_from_sound.
Qed.

Lemma star_from_mono step f1 :
  ∀ f2 s rest, f1 ≤ f2 →
    rest ∈ Re.star_from step f1 s → rest ∈ Re.star_from step f2 s.
Proof.
  induction f1 as [|f1 IH]; intros f2 s rest Hle; simpl.
  - intros ->%list_elem_of_singleton. destruct f2; apply list_elem_of_here.
  - destruct f2 as [|f2]; [lia|]. simpl.
    intros [->|Hin]%elem_of_cons; [apply list_elem_of_here|].
    apply list_elem_of_further.
    apply elem_of_flat_map in Hin as (s1 & Hs1 & Hrest).
    apply elem_of_flat_map. exists s1. split; [done|].
    destruct (String.length s1 <? String.length s); [|done].
    apply (IH f2); [lia|done].
Qed.

Lemma matches_from_complete r s rest :
  Re.Matches r s rest → rest ∈ Re.matches_from r s.
Proof.
  induction 1 as [s|c s|c s Hc|s Hend|r1 r2 s s1 s2 _ IH1 _ IH2
                 |r1 r2 s s1 _ IH|r1 r2 s s1 _ IH|r s
                 |r s s1 s2 H1 IH1 H2 IH2]; simpl.
  - apply list_elem_of_here.
  - rewrite bool_decide_eq_true_2 by done. apply list_elem_of_here.
  - rewrite bool_decide_eq_false_2 by done. apply list_elem_of_here.
  - rewrite Hend. apply list_elem_of_here.
  - apply elem_of_flat_map. eauto.
  - apply elem_of_app. by left.
  - apply elem_of_app. by right.
  - destruct (String.length s); apply list_elem_of_here.
  - destruct (Matches_length _ _ _ H1) as [Hle Heq]. simpl in IH2.
    destruct (decide (String.length s1 = String.length s)) as [Hlen|Hlen].
    { by rewrite (Heq Hlen) in IH2. }
    destruct (String.length s) as [|n] eqn:Hn; [lia|].
    simpl. apply list_elem_of_further, elem_of_flat_map.
    exists s1. split; [done|]. rewrite Hn.
    destruct (Nat.ltb_spec (String.length s1) (S n)) as [_|?]; [|lia].
    apply (star_from_mono _ (String.length s1)); [lia|done].
Qed.

(** [re.match] succeeds exactly when the pattern matches from the first
    character of the string. *)
Lemma re_match_Matches r s :
  Re.re_match r s = true ↔ ∃ rest, Re.Matches r s rest.
Proof.
  unfold Re.re_match. split.
  - destruct (Re.matches_from r s) as [|rest l] eqn:Hm; [done|]. intros _.
    exists rest. apply matches_from_sound. rewrite Hm. apply list_elem_of_here.
  - intros [rest Hrest%matches_from_complete].
    destruct (Re.matches_from r s); [by apply elem_of_nil in Hrest|done].
Qed.

(** ** The effect monad *)

Lemma bind_ok {A B} (m : M A) (f : A → M B) st a st' :
  m st = (Ok a, st') → (m ≫= f) st = f a st'.
Proof. intros H. unfold mbind, M_bind. by rewrite H. Qed.

Lemma bind_raise {A B} (m : M A) (f : A → M B) st e st' :
  m st = (Raise e, st') → (m ≫= f) st = (Raise e, st').
Proof. intros H. unfold mbind, M_bind. by rewrite H. Qed.

Lemma emit_bind {B} (e : io) (f : unit → M B) st :
  (emit e ≫= f) st = f tt (st ++ [e]).
Proof. done. Qed.

(** Traces are compared with the appends associated to the right. *)
Ltac trace_eq :=
  repeat (rewrite <- app_assoc; simpl); rewrite ?app_nil_r; simpl.

(** ** [_run_commands] *)

Section RunCommands.

Variable sh : list io → string → Z.

Lemma exit_code_cons st c cmds i :
  exit_code sh st (c :: cmds) (S i) = exit_code sh (st ++ [Exec c]) cmds i.
Proof.
  unfold exit_code. simpl. destruct (cmds !! i); [|done].
  by rewrite <- app_assoc.
Qed.

Lemma exit_code_head st c cmds : exit_code sh st (c :: cmds) 0 = sh st c.
Proof. unfold exit_code. simpl. by rewrite app_nil_r. Qed.

Lemma stops_nil st : stops_at_first_failure sh st [] 0 0%Z.
Proof. split; [lia|]. left. split; [done|]. split; [lia|done]. Qed.

Lemma stops_fail st c cmds :
  sh st c ≠ 0%Z → stops_at_first_failure sh st (c :: cmds) 1 (sh st c).
Proof.
  intros Hne. split; [lia|]. right. simpl. split; [lia|]. split; [|done].
  apply exit_code_head.
Qed.

Lemma stops_step st c cmds k rc :
  sh st c = 0%Z →
  stops_at_first_failure sh (st ++ [Exec c]) cmds k rc →
  stops_at_first_failure sh st (c :: cmds) (S k) rc.
Proof.
  intros H0 [Hbefore Hend]. split.
  - intros [|i] Hi; [by rewrite exit_code_head|].
    rewrite exit_code_cons. apply Hbefore. lia.
  - destruct Hend as [(-> & Hall & ->)|(Hk & Hrc & Hne)].
    + left. split; [done|]. split; [|done].
      intros [|i] Hi; [by rewrite exit_code_head|].
      rewrite exit_code_cons. apply Hall. lia.
    + right. simpl. split; [lia|]. split; [|done].
      destruct k as [|k]; [lia|]. simpl in *.
      rewrite exit_code_cons. by rewrite Nat.sub_0_r in *.
Qed.

(** The loop runs the commands in order, under the definition's name, up
    to the first failure. *)
Lemma for_commands_named defn n cmds st :
  defn !! "__name" = Some (VStr n) →
  ∃ k rc,
    for_commands sh defn cmds st
    = (Ok rc, st ++ map Exec (take k (map (with_name n) cmds)))
    ∧ stops_at_first_failure sh st (map (with_name n) cmds) k rc.
Proof.
  intros Hn. revert st. induction cmds as [|c cmds IH]; intros st.
  - exists 0, 0%Z. simpl. rewrite app_nil_r. split; [done|apply stops_nil].
  - simpl. rewrite Hn. unfold mbind, M_bind, subprocess_run.
    fold (with_name n c). case_bool_decide as Hrc.
    + exists 1, (sh st (with_name n c)). split; [done|by apply stops_fail].
    + destruct (IH (st ++ [Exec (with_name n c)])) as (k & rc & -> & Hst).
      exists (S k), rc. split.
      * simpl. by rewrite <- app_assoc.
      * apply stops_step; [|done].
        destruct (decide (sh st (with_name n c) = 0%Z)); [done|by destruct Hrc].
Qed.

Lemma shell_commands_named defn key n l :
  defn !! "__name" = Some (VStr n) → hook_list defn key = Some l →
  shell_commands defn key = map (with_name n) l.
Proof. intros Hn Hl. unfold shell_commands. by rewrite Hn, Hl. Qed.

(** A call whose definition has a name and a list of commands at the key
    returns, having run the list up to its first failure. *)
Lemma run_commands_named defn key n l st :
  defn !! "__name" = Some (VStr n) → hook_list defn key = Some l →
  ∃ k rc,
    _run_commands sh defn key st = (Ok rc, st ++ run_block defn key k)
    ∧ stops_at_first_failure sh (st ++ [Call defn key])
                             (shell_commands defn key) k rc.
Proof.
  intros Hn Hl. rewrite (shell_commands_named _ _ _ _ Hn Hl).
  unfold run_block. rewrite (shell_commands_named _ _ _ _ Hn Hl).
  destruct (for_commands_named defn n l (st ++ [Call defn key]) Hn)
    as (k & rc & Hrun & Hstop).
  unfold _run_commands. unfold hook_list in Hl.
  destruct (defn !! key) as [[c|cs|[|s ss]|ks]|] eqn:Hkey; simplify_eq.
  - exists k, rc. rewrite emit_bind, Hrun. by rewrite <- app_assoc.
  - exists k, rc. rewrite emit_bind, Hrun. by rewrite <- app_assoc.
  - exists 0, 0%Z. rewrite emit_bind. split; [done|apply stops_nil].
  - exists k, rc. rewrite emit_bind, Hrun. by rewrite <- app_assoc.
  - exists 0, 0%Z. rewrite emit_bind. split; [done|apply stops_nil].
Qed.

Lemma for_commands_unnamed defn cmds st :
  (∀ n, defn !! "__name" ≠ Some (VStr n)) →
  ∃ r, for_commands sh defn cmds st = (r, st).
Proof.
  intros Hn. destruct cmds as [|c cmds]; simpl; [by eexists|].
  destruct (defn !! "__name") as [[n| | |]|]; try by eexists.
  by destruct (Hn n).
Qed.

Lemma run_commands_unnamed defn key st :
  (∀ n, defn !! "__name" ≠ Some (VStr n)) →
  shell_commands defn key = []
  ∧ ∃ r, _run_commands sh defn key st = (r, st ++ [Call defn key]).
Proof.
  intros Hno. split.
  - unfold shell_commands. destruct (defn !! "__name") as [[n| | |]|] eqn:Hn; try done.
    by destruct (Hno n).
  - unfold _run_commands. rewrite emit_bind.
    destruct (defn !! key) as [[c|cs|[|s ss]|ks]|]; try by eexists.
    + apply for_commands_unnamed, Hno.
    + apply for_commands_unnamed, Hno.
    + apply for_commands_unnamed, Hno.
Qed.

(** Any call leaves one block in the trace, whatever it returns. *)
Lemma run_commands_trace defn key st :
  ∃ r k, _run_commands sh defn key st = (r, st ++ run_block defn key k).
Proof.
  assert ((∃ n, defn !! "__name" = Some (VStr n))
          ∨ ¬ (∃ n, defn !! "__name" = Some (VStr n))) as [[n Hn]|Hno].
  { destruct (defn !! "__name") as [[n| | |]|]; [by left; exists n|..];
      right; intros [? ?]; congruence. }
  - destruct (hook_list defn key) as [l|] eqn:Hl.
    + destruct (run_commands_named defn key n l st Hn Hl) as (k & rc & -> & _).
      by exists (Ok rc), k.
    + unfold hook_list in Hl. unfold _run_commands, run_block.
      destruct (defn !! key) as [[c|cs|[|s ss]|ks]|]; simplify_eq.
      rewrite emit_bind. exists (Raise AttributeError), 0. by rewrite take_0.
  - destruct (run_commands_unnamed defn key st) as (Hsc & r & Hr).
    { intros n Hn. apply Hno. by exists n. }
    exists r, 0. unfold run_block. by rewrite Hsc, Hr.
Qed.

End RunCommands.

(** ** The pipeline of one definition *)

Section Pipeline.

Variable sh : list io → string → Z.

Lemma run_pipeline_skip key defn st :
  ∃ r k, run_pipeline sh true key defn st
         = (r, st ++ run_block defn "skipped" k).
Proof.
  unfold run_pipeline.
  destruct (run_commands_trace sh defn "skipped" st) as (r & k & Hr).
  destruct r as [rc|e].
  - exists (Ok tt), k. by rewrite (bind_ok _ _ _ _ _ Hr).
  - exists (Raise e), k. by rewrite (bind_raise _ _ _ _ _ Hr).
Qed.

(** Without the skip file: the line printed, the [commands] block, then the
    block of the hook chosen by the result, then the empty line. An
    exception in either call ends the pipeline there. *)
Lemma run_pipeline_run key defn st :
  ∃ r k tl,
    run_pipeline sh false key defn st
    = (r, st ++ Print ("Executing " +:+ key) :: run_block defn "commands" k ++ tl)
    ∧ (tl = []
       ∨ ∃ hook k', (hook = "completed" ∨ hook = "error")
           ∧ (tl = run_block defn hook k'
              ∨ tl = run_block defn hook k' ++ [Print ""])).
Proof.
  unfold run_pipeline, print. rewrite emit_bind.
  destruct (run_commands_trace sh defn "commands"
              (st ++ [Print ("Executing " +:+ key)])) as (r & k & Hr).
  rewrite <- app_assoc in Hr. simpl in Hr.
  destruct r as [rc|e].
  2: { exists (Raise e), k, []. rewrite (bind_raise _ _ _ _ _ Hr), app_nil_r. eauto. }
  rewrite (bind_ok _ _ _ _ _ Hr).
  set (hook := if bool_decide (rc = 0%Z) then "completed" else "error").
  assert (hook = "completed" ∨ hook = "error") as Hhook
    by (unfold hook; case_bool_decide; eauto).
  destruct (run_commands_trace sh defn hook
    (st ++ Print ("Executing " +:+ key) :: run_block defn "commands" k))
    as (r' & k' & Hr').
  destruct r' as [rc'|e].
  - rewrite (bind_ok _ _ _ _ _ Hr'). unfold emit.
    exists (Ok tt), k, (run_block defn hook k' ++ [Print ""]).
    split; [|right; eauto 10].
    f_equal. by trace_eq.
  - rewrite (bind_raise _ _ _ _ _ Hr').
    exists (Raise e), k, (run_block defn hook k').
    split; [|right; eauto 10].
    f_equal. by trace_eq.
Qed.

End Pipeline.

(** ** Reading traces *)

Lemma calls_app tr1 tr2 : calls (tr1 ++ tr2) = calls tr1 ++ calls tr2.
Proof. apply omap_app. Qed.

Lemma execs_app tr1 tr2 : execs (tr1 ++ tr2) = execs tr1 ++ execs tr2.
Proof. apply omap_app. Qed.

Lemma printed_app tr1 tr2 : printed (tr1 ++ tr2) = printed tr1 ++ printed tr2.
Proof. apply omap_app. Qed.

Lemma calls_execs l : calls (map Exec l) = [].
Proof. by induction l. Qed.

Lemma calls_prints l : calls (map Print l) = [].
Proof. by induction l. Qed.

Lemma execs_prints l : execs (map Print l) = [].
Proof. by induction l. Qed.

Lemma execs_execs l : execs (map Exec l) = l.
Proof. induction l; simpl; by f_equal. Qed.

Lemma calls_run_block defn key k : calls (run_block defn key k) = [(defn, key)].
Proof. unfold run_block. simpl. by rewrite calls_execs. Qed.

Lemma hooks_for_app key tr1 tr2 :
  hooks_for key (tr1 ++ tr2) = hooks_for key tr1 ++ hooks_for key tr2.
Proof. unfold hooks_for. by rewrite calls_app, filter_app, map_app. Qed.

Lemma hooks_for_prints key l : hooks_for key (map Print l) = [].
Proof. unfold hooks_for. by rewrite calls_prints. Qed.

Lemma hooks_for_block key defn hook k :
  hooks_for key (run_block defn hook k)
  = if bool_decide (key_of defn = Some key) then [hook] else [].
Proof.
  unfold hooks_for. rewrite calls_run_block.
  rewrite filter_cons, filter_nil. simpl.
  case_bool_decide; by destruct (decide _).
Qed.

(** ** One definition fires at most once *)

Section Triggered.

Variable sh : list io → string → Z.

(** The calls of one pipeline are all for its definition, and are the
    calls of one run. *)
Lemma run_pipeline_hooks skip k defn st :
  key_of defn = Some k →
  ∃ r tr, run_pipeline sh skip k defn st = (r, st ++ tr)
    ∧ hooks_for k tr ∈ one_run ∧ hooks_for k tr ≠ []
    ∧ ∀ key, key ≠ k → hooks_for key tr = [].
Proof.
  intros Hk. destruct skip.
  - destruct (run_pipeline_skip sh k defn st) as (r & n & ->).
    exists r, (run_block defn "skipped" n). split; [done|].
    rewrite !hooks_for_block. rewrite bool_decide_eq_true_2 by done.
    split; [unfold one_run; set_solver|]. split; [done|].
    intros key Hne. rewrite hooks_for_block.
    rewrite bool_decide_eq_false_2; [done|congruence].
  - destruct (run_pipeline_run sh k defn st) as (r & n & tl & -> & Htl).
    eexists r, _. split; [done|].
    assert (∀ key hook m, hooks_for key (run_block defn hook m)
              = if bool_decide (key = k) then [hook] else []) as Hb.
    { intros key hook m. rewrite hooks_for_block.
      repeat case_bool_decide; congruence. }
    assert (∀ key, hooks_for key [Print ""] = []) as Hp by done.
    change (Print ("Executing " +:+ k) :: run_block defn "commands" n ++ tl)
      with ([Print ("Executing " +:+ k)] ++ run_block defn "commands" n ++ tl).
    destruct Htl as [->|(hook & m & [-> | ->] & [->| ->])];
      (split; [|split]); try intros key Hne;
      rewrite ?hooks_for_app, ?Hb, ?Hp, ?app_nil_r; simpl;
      rewrite ?bool_decide_eq_true_2 by done;
      rewrite ?bool_decide_eq_false_2 by done;
      try done; unfold one_run; set_solver.
Qed.

Lemma nil_one_run : [] ∈ one_run.
Proof. unfold one_run. apply list_elem_of_here. Qed.

Lemma key_of_lookup defn k : defn !! "__key" = Some (VStr k) → key_of defn = Some k.
Proof. intros H. unfold key_of. by rewrite H. Qed.

(** The loop over the handlers: a key already in [triggered] gets no call,
    every key gets the calls of at most one run, and the keys the loop ends
    with are the ones it started with and the ones that got a call. *)
Lemma for_handlers_once skip hs :
  ∀ T st, ∃ r tr,
    for_handlers sh skip hs T st = (r, st ++ tr)
    ∧ ∀ key, hooks_for key tr ∈ one_run
        ∧ (key ∈ T → hooks_for key tr = [])
        ∧ (∀ T', r = Ok T' → key ∈ T' ↔ key ∈ T ∨ hooks_for key tr ≠ []).
Proof.
  induction hs as [|h hs IH]; intros T st; simpl.
  { exists (Ok T), []. rewrite app_nil_r. split; [done|]. intros key.
    split; [apply nil_one_run|]. split; [done|].
    intros T' [= <-]. unfold hooks_for. simpl.
    split; [by left|by intros [?|?]]. }
  destruct (has_change h); [|apply IH].
  destruct (monitor_defn h !! "__key") as [[k|l|l|l]|] eqn:Hkey;
    try (eexists (Raise _), []; rewrite app_nil_r; split; [done|];
         intros key; split; [apply nil_one_run|]; by split).
  case_bool_decide as HkT; [apply IH|].
  destruct (run_pipeline_hooks skip k (monitor_defn h) st (key_of_lookup _ _ Hkey))
    as (r & trp & Hrun & Hone & Hne & Hother).
  destruct r as [[]|e].
  - rewrite (bind_ok _ _ _ _ _ Hrun).
    destruct (IH ({[k]} ∪ T) (st ++ trp)) as (r' & trr & -> & Hrest).
    exists r', (trp ++ trr). split; [by rewrite app_assoc|].
    intros key. destruct (Hrest key) as (Hin & Hnone & Hfinal).
    rewrite hooks_for_app. destruct (decide (key = k)) as [->|Hkk].
    + rewrite Hnone, app_nil_r by (apply elem_of_union_l; by apply elem_of_singleton).
      split; [done|]. split; [done|].
      intros T' HT'. rewrite (Hfinal T' HT'), elem_of_union, elem_of_singleton.
      split; [by right|by left; left].
    + rewrite (Hother key Hkk). simpl. split; [done|].
      split; [intros; by apply Hnone, elem_of_union_r|].
      intros T' HT'. rewrite (Hfinal T' HT'), elem_of_union, elem_of_singleton.
      tauto.
  - rewrite (bind_raise _ _ _ _ _ Hrun). exists (Raise e), trp.
    split; [done|]. intros key. destruct (decide (key = k)) as [->|Hkk].
    + split; [done|]. by split.
    + rewrite (Hother key Hkk). split; [apply nil_one_run|]. by split.
Qed.

End Triggered.

(** ** The set-up only prints *)

Lemma prints_only_ret {A} (a : A) : prints_only (mret a).
Proof. intros st. exists (Ok a), []. simpl. by rewrite app_nil_r. Qed.

Lemma prints_only_raise {A} e : prints_only (@raise A e).
Proof. intros st. exists (Raise e), []. simpl. by rewrite app_nil_r. Qed.

Lemma prints_only_print msg : prints_only (print msg).
Proof. intros st. by exists (Ok tt), [msg]. Qed.

Lemma prints_only_bind {A B} (m : M A) (f : A → M B) :
  prints_only m → (∀ a, prints_only (f a)) → prints_only (m ≫= f).
Proof.
  intros Hm Hf st. destruct (Hm st) as (r & ms & Hr). destruct r as [a|e].
  - rewrite (bind_ok _ _ _ _ _ Hr).
    destruct (Hf a (st ++ map Print ms)) as (r' & ms' & ->).
    exists r', (ms ++ ms'). by rewrite map_app, app_assoc.
  - rewrite (bind_raise _ _ _ _ _ Hr). by exists (Raise e), ms.
Qed.

Create HintDb prints.

#[local] Hint Resolve prints_only_ret prints_only_raise prints_only_print
  prints_only_bind : prints.

Section Setup.

Variable iglob : string → list string.
Variable load_yaml : string → option (list (string * gmap string value)).
Variable observer_start : list string → bool.

Lemma get_searches_prints defn : prints_only (get_searches defn).
Proof.
  unfold get_searches.
  destruct (defn !! "searches") as [[s|[|s l]|[|s l]|ks]|]; auto with prints.
Qed.

Lemma for_search_prints defn search self :
  prints_only (for_search iglob defn search self).
Proof.
  unfold for_search. destruct (paths search); [|auto with prints].
  destruct (for_globs _ _ _ _ _) as [self' found].
  destruct (last _); [|auto with prints].
  destruct found; simpl; [auto with prints|].
  apply prints_only_bind; [auto with prints|]. intros _.
  destruct (exit_on_error _); auto with prints.
Qed.

Lemma for_searches_prints defn searches :
  ∀ self, prints_only (for_searches iglob defn searches self).
Proof.
  induction searches as [|s searches IH]; intros self; simpl;
    [auto with prints|].
  apply prints_only_bind; [apply for_search_prints|auto].
Qed.

Lemma for_defns_prints source defns :
  ∀ self, prints_only (for_defns iglob source defns self).
Proof.
  induction defns as [|[n d] defns IH]; intros self; simpl;
    [auto with prints|].
  case_bool_decide; [apply IH|].
  apply prints_only_bind; [apply get_searches_prints|]. intros searches.
  apply prints_only_bind; [apply for_searches_prints|auto].
Qed.

Lemma for_yaml_files_prints files :
  ∀ self, prints_only (for_yaml_files iglob load_yaml files self).
Proof.
  induction files as [|f files IH]; intros self; simpl; [auto with prints|].
  destruct (load_yaml f); [|auto with prints].
  apply prints_only_bind; [apply for_defns_prints|auto].
Qed.

Lemma setup_observers_prints self :
  prints_only (_setup_observers iglob load_yaml observer_start self).
Proof.
  unfold _setup_observers.
  apply prints_only_bind; [auto with prints|]. intros _.
  apply prints_only_bind; [apply for_yaml_files_prints|]. intros self'.
  destruct (observer_start _); [auto with prints|].
  destruct (exit_on_error _); auto with prints.
Qed.

(** The set-up never changes the command line. *)
Lemma keeps_args_ret self self' : args self' = args self → keeps_args self (mret self').
Proof. intros H st s st' [= <- <-]. done. Qed.

Lemma keeps_args_raise self e : keeps_args self (raise e).
Proof. intros st s st' [=]. Qed.

Lemma keeps_args_bind self (m : M FilesWatcher) (f : FilesWatcher → M FilesWatcher) :
  keeps_args self m → (∀ a, args a = args self → keeps_args self (f a)) →
  keeps_args self (m ≫= f).
Proof.
  intros Hm Hf st s st'. unfold mbind, M_bind.
  destruct (m st) as [[a|e] st1] eqn:Hmst; [|done].
  intros Hfa. eapply Hf; [|done]. by eapply Hm.
Qed.

Lemma keeps_args_bind_any {A} self (m : M A) (f : A → M FilesWatcher) :
  (∀ a, keeps_args self (f a)) → keeps_args self (m ≫= f).
Proof.
  intros Hf st s st'. unfold mbind, M_bind.
  destruct (m st) as [[a|e] st1]; [|done]. apply Hf.
Qed.

Lemma for_glob_args defn search g acc :
  args (for_glob iglob defn search acc g).1 = args acc.1.
Proof.
  unfold for_glob. revert acc.
  induction (iglob g) as [|p ps IH]; intros acc; simpl; [done|].
  by rewrite IH.
Qed.

Lemma for_globs_args defn search globs self :
  args (for_globs iglob defn search globs self).1 = args self.
Proof.
  unfold for_globs. change (args self) with (args (self, false).1).
  generalize (self, false). induction globs as [|g globs IH]; intros acc;
    simpl; [done|].
  by rewrite IH, for_glob_args.
Qed.

Lemma for_search_args defn search self0 self :
  args self = args self0 → keeps_args self0 (for_search iglob defn search self).
Proof.
  intros Ha. unfold for_search. destruct (paths search); [|apply keeps_args_raise].
  pose proof (for_globs_args defn search (as_list s) self) as Hg.
  destruct (for_globs _ _ _ _ _) as [self' found]. simpl in Hg.
  assert (keeps_args self0 (mret self')) as Hret
    by (apply keeps_args_ret; congruence).
  destruct (last _); [|done]. destruct found; simpl; [done|].
  apply keeps_args_bind_any. intros _.
  destruct (exit_on_error _); [apply keeps_args_raise|done].
Qed.

Lemma for_searches_args defn searches self0 :
  ∀ self, args self = args self0 →
          keeps_args self0 (for_searches iglob defn searches self).
Proof.
  induction searches as [|s searches IH]; intros self Ha; simpl.
  - by apply keeps_args_ret.
  - apply keeps_args_bind; [by apply for_search_args|auto].
Qed.

Lemma for_defns_args source defns self0 :
  ∀ self, args self = args self0 →
          keeps_args self0 (for_defns iglob source defns self).
Proof.
  induction defns as [|[n d] defns IH]; intros self Ha; simpl.
  - by apply keeps_args_ret.
  - case_bool_decide; [by apply IH|].
    apply keeps_args_bind_any. intros searches.
    apply keeps_args_bind; [by apply for_searches_args|auto].
Qed.

Lemma for_yaml_files_args files self0 :
  ∀ self, args self = args self0 →
          keeps_args self0 (for_yaml_files iglob load_yaml files self).
Proof.
  induction files as [|f files IH]; intros self Ha; simpl.
  - by apply keeps_args_ret.
  - destruct (load_yaml f); [|apply keeps_args_raise].
    apply keeps_args_bind; [by apply for_defns_args|auto].
Qed.

Lemma setup_observers_args self :
  keeps_args self (_setup_observers iglob load_yaml observer_start self).
Proof.
  unfold _setup_observers. apply keeps_args_bind_any. intros _.
  apply keeps_args_bind; [by apply for_yaml_files_args|].
  intros self' Ha. destruct (observer_start _); [by apply keeps_args_ret|].
  destruct (exit_on_error _); [apply keeps_args_raise|by apply keeps_args_ret].
Qed.

Lemma deliver_args deliveries :
  ∀ self, args (fold_left deliver deliveries self) = args self.
Proof.
  induction deliveries as [|d ds IH]; intros self; simpl; [done|].
  by rewrite IH.
Qed.

End Setup.

(** ** A whole cycle *)

Section Cycle.

Variable sh : list io → string → Z.
Variable iglob : string → list string.
Variable path_exists : string → bool.
Variable load_yaml : string → option (list (string * gmap string value)).
Variable observer_start : list string → bool.

(** A cycle is the set-up, which only prints, followed by the loop over
    the handlers as the deliveries left them. *)
Lemma start_cases deliveries self st :
  ∃ ms,
    (∃ e, start sh iglob path_exists load_yaml observer_start deliveries self st
          = (Raise e, st ++ map Print ms))
    ∨ ∃ self'',
        args self'' = args self
        ∧ start sh iglob path_exists load_yaml observer_start deliveries self st
          = (match (run_triggered sh path_exists self'' (st ++ map Print ms)).1 with
             | Ok _ => Ok self''
             | Raise e => Raise e
             end,
             (run_triggered sh path_exists self'' (st ++ map Print ms)).2).
Proof.
  unfold start.
  destruct (setup_observers_prints iglob load_yaml observer_start self st)
    as (r & ms & Hr).
  exists ms. destruct r as [self'|e].
  - right. exists (fold_left deliver deliveries self'). split.
    + rewrite deliver_args. by eapply setup_observers_args.
    + rewrite (bind_ok _ _ _ _ _ Hr). unfold mbind, M_bind.
      by destruct (run_triggered _ _ _ _) as [[T|e] st'].
  - left. exists e. by rewrite (bind_raise _ _ _ _ _ Hr).
Qed.

(** What holds of the trace of the loop, for every set of handlers, and of
    no trace at all, holds of the trace of a cycle. *)
Lemma start_trace (P : list io → Prop) deliveries self st :
  P [] →
  (∀ ms tr, P tr → P (map Print ms ++ tr)) →
  (∀ self'' st', args self'' = args self →
     ∃ r tr, run_triggered sh path_exists self'' st' = (r, st' ++ tr) ∧ P tr) →
  ∃ r tr,
    start sh iglob path_exists load_yaml observer_start deliveries self st
    = (r, st ++ tr) ∧ P tr.
Proof.
  intros Hnil Hprints Hrun.
  destruct (start_cases deliveries self st) as (ms & [(e & ->)|(self'' & Ha & ->)]).
  - exists (Raise e), (map Print ms ++ []). split; [by rewrite app_nil_r|auto].
  - destruct (Hrun self'' (st ++ map Print ms) Ha) as (r & tr & -> & HP).
    eexists _, (map Print ms ++ tr). split; [|auto].
    simpl. by rewrite app_assoc.
Qed.

(** A property of the traces of single pipelines that appending keeps
    holds of the trace of the loop. *)
Lemma for_handlers_trace (P : list io → Prop) skip hs :
  P [] →
  (∀ a b, P a → P b → P (a ++ b)) →
  (∀ h k st, h ∈ hs → has_change h = true →
     monitor_defn h !! "__key" = Some (VStr k) →
     ∃ r tr, run_pipeline sh skip k (monitor_defn h) st = (r, st ++ tr) ∧ P tr) →
  ∀ T st, ∃ r tr, for_handlers sh skip hs T st = (r, st ++ tr) ∧ P tr.
Proof.
  intros Hnil Happ. induction hs as [|h hs IH]; intros Hpipe T st; simpl.
  { exists (Ok T), []. by rewrite app_nil_r. }
  assert (∀ T st, ∃ r tr, for_handlers sh skip hs T st = (r, st ++ tr) ∧ P tr)
    as IH'.
  { apply IH. intros h' k st' Hin. apply Hpipe. by apply elem_of_cons; right. }
  destruct (has_change h) eqn:Hch; [|apply IH'].
  destruct (monitor_defn h !! "__key") as [[k|l|l|l]|] eqn:Hkey;
    try (eexists (Raise _), []; by rewrite app_nil_r).
  case_bool_decide; [apply IH'|].
  destruct (Hpipe h k st) as (r & trp & Hrun & HP);
    [apply list_elem_of_here|done|done|].
  destruct r as [[]|e].
  - rewrite (bind_ok _ _ _ _ _ Hrun).
    destruct (IH' ({[k]} ∪ T) (st ++ trp)) as (r' & trr & -> & HP').
    exists r', (trp ++ trr). split; [by rewrite app_assoc|auto].
  - rewrite (bind_raise _ _ _ _ _ Hrun). by exists (Raise e), trp.
Qed.

End Cycle.

(** * The claims *)

(** ** C3 *)

(** C3. The commands of the [commands] list of a definition are executed in
    the declared order; execution stops at the first command whose exit code
    is not zero, no later command runs and that exit code is the result of
    the phase; when every command exits with zero, or the key is absent,
    the result is 0. *)
Theorem commands_stop_at_first_failure
    (sh : list io → string → Z) (defn : gmap string value) (n : string)
    (l : list string) (st : list io) :
  defn !! "__name" = Some (VStr n) →
  hook_list defn "commands" = Some l →
  ∃ k rc,
    _run_commands sh defn "commands" st
    = (Ok rc, st ++ Call defn "commands"
                 :: map Exec (take k (map (with_name n) l)))
    ∧ stops_at_first_failure sh (st ++ [Call defn "commands"])
                             (map (with_name n) l) k rc.
Proof.
  intros Hn Hl.
  destruct (run_commands_named sh defn "commands" n l st Hn Hl)
    as (k & rc & Hrun & Hstop).
  exists k, rc. unfold run_block in Hrun.
  by rewrite (shell_commands_named _ _ _ _ Hn Hl) in Hrun, Hstop.
Qed.

Lemma commands_stop_at_first_failure_witness :
  ∃ k rc,
    _run_commands Sample.shell Sample.build_defn "commands" []
    = (Ok rc, [] ++ Call Sample.build_defn "commands"
                 :: map Exec (take k (map (with_name "build")
                                          ["true"; "false"; "true"])))
    ∧ stops_at_first_failure Sample.shell ([] ++ [Call Sample.build_defn "commands"])
        (map (with_name "build") ["true"; "false"; "true"]) k rc.
Proof.
  apply (commands_stop_at_first_failure Sample.shell Sample.build_defn "build"
           ["true"; "false"; "true"] []); reflexivity.
Defined.

(** The specification's own example: of [true; false; true] the third
    command does not run, and [error] is called, not [completed]. *)
Example true_false_true :
  let tr := (run_pipeline Sample.shell false "watch.yaml:build"
               Sample.build_defn []).2 in
  execs tr = ["true"; "false"; "echo build failed"]
  ∧ map snd (calls tr) = ["commands"; "error"].
Proof. by vm_compute. Qed.

(** ** C4 *)

(** C4, as the specification words it, fails: in the [completed] list
    [false; echo done] the second command never runs once the first has
    failed. *)
Lemma hook_list_is_cut_short :
  ¬ hook_runs_to_completion Sample.shell "watch.yaml:docs" Sample.docs_defn [].
Proof.
  intros H. specialize (H "completed").
  assert ((run_pipeline Sample.shell false "watch.yaml:docs" Sample.docs_defn []).2
          = [Print "Executing watch.yaml:docs"; Call Sample.docs_defn "commands";
             Call Sample.docs_defn "completed"; Exec "false"; Print ""]) as Htr
    by reflexivity.
  rewrite Htr in H. simpl in H.
  assert ("echo done" ∈ ["false"]) as Hin.
  { apply H; [|done|].
    - apply list_elem_of_further, list_elem_of_here.
    - change (shell_commands Sample.docs_defn "completed") with ["false"; "echo done"].
      apply list_elem_of_further, list_elem_of_here. }
  apply list_elem_of_singleton in Hin. discriminate Hin.
Qed.

(** C4, amended. Without the skip file, after the [commands] phase the
    pipeline calls [completed] when the result was 0 and [error] otherwise;
    the hook list called runs in the declared order up to its first command
    that fails, and whatever it returns the pipeline ends normally: the
    failure of a hook is not passed on. *)
Theorem hook_follows_result
    (sh : list io → string → Z) (key : string) (defn : gmap string value)
    (n : string) (cs hs1 hs2 : list string) (st : list io) :
  defn !! "__name" = Some (VStr n) →
  hook_list defn "commands" = Some cs →
  hook_list defn "completed" = Some hs1 →
  hook_list defn "error" = Some hs2 →
  ∃ k rc k' rc',
    let hook := if bool_decide (rc = 0%Z) then "completed" else "error" in
    let st1 := st ++ [Print ("Executing " +:+ key)] in
    let st2 := st1 ++ run_block defn "commands" k in
    run_pipeline sh false key defn st
    = (Ok tt, st2 ++ run_block defn hook k' ++ [Print ""])
    ∧ stops_at_first_failure sh (st1 ++ [Call defn "commands"])
                             (shell_commands defn "commands") k rc
    ∧ stops_at_first_failure sh (st2 ++ [Call defn hook])
                             (shell_commands defn hook) k' rc'.
Proof.
  intros Hn Hcs Hh1 Hh2. unfold run_pipeline, print. rewrite emit_bind.
  destruct (run_commands_named sh defn "commands" n cs
              (st ++ [Print ("Executing " +:+ key)]) Hn Hcs)
    as (k & rc & Hrun & Hstop).
  rewrite (bind_ok _ _ _ _ _ Hrun).
  set (hook := if bool_decide (rc = 0%Z) then "completed" else "error").
  assert (∃ hs, hook_list defn hook = Some hs) as [hs Hhs]
    by (unfold hook; case_bool_decide; eauto).
  destruct (run_commands_named sh defn hook n hs
              ((st ++ [Print ("Executing " +:+ key)]) ++ run_block defn "commands" k)
              Hn Hhs) as (k' & rc' & Hrun' & Hstop').
  rewrite (bind_ok _ _ _ _ _ Hrun').
  exists k, rc, k', rc'. simpl. split; [|done].
  unfold emit. f_equal. by trace_eq.
Qed.

Lemma hook_follows_result_witness :
  ∃ k rc k' rc',
    let hook := if bool_decide (rc = 0%Z) then "completed" else "error" in
    let st1 := [] ++ [Print ("Executing " +:+ "watch.yaml:docs")] in
    let st2 := st1 ++ run_block Sample.docs_defn "commands" k in
    run_pipeline Sample.shell false "watch.yaml:docs" Sample.docs_defn []
    = (Ok tt, st2 ++ run_block Sample.docs_defn hook k' ++ [Print ""])
    ∧ stops_at_first_failure Sample.shell (st1 ++ [Call Sample.docs_defn "commands"])
        (shell_commands Sample.docs_defn "commands") k rc
    ∧ stops_at_first_failure Sample.shell (st2 ++ [Call Sample.docs_defn hook])
        (shell_commands Sample.docs_defn hook) k' rc'.
Proof.
  apply (hook_follows_result Sample.shell "watch.yaml:docs" Sample.docs_defn
           "docs" [] ["false"; "echo done"] ["echo _MONITOR_NAME_ failed"] []);
    reflexivity.
Defined.

(** ** C10 *)

(** C10. For a definition with no [commands] key at all, the [commands]
    phase runs nothing and returns 0, and the pipeline goes on to call
    [completed], never [error]; for a definition that has its name, the
    [completed] list then runs, in order and up to its first command that
    fails, and the pipeline ends normally. *)
Theorem no_commands_key_completes
    (sh : list io → string → Z) (key : string) (defn : gmap string value)
    (st : list io) :
  defn !! "commands" = None →
  _run_commands sh defn "commands" st = (Ok 0%Z, st ++ [Call defn "commands"])
  ∧ (∃ r k tl,
       run_pipeline sh false key defn st
       = (r, st ++ [Print ("Executing " +:+ key); Call defn "commands"]
                ++ run_block defn "completed" k ++ tl)
       ∧ (tl = [] ∨ tl = [Print ""]))
  ∧ ∀ n hs,
      defn !! "__name" = Some (VStr n) →
      hook_list defn "completed" = Some hs →
      ∃ k rc,
        run_pipeline sh false key defn st
        = (Ok tt,
           st ++ [Print ("Executing " +:+ key); Call defn "commands"]
              ++ (Call defn "completed"
                    :: map Exec (take k (map (with_name n) hs)))
              ++ [Print ""])
        ∧ stops_at_first_failure sh
            (st ++ [Print ("Executing " +:+ key); Call defn "commands";
                    Call defn "completed"])
            (map (with_name n) hs) k rc.
Proof.
  intros Hnone.
  assert (∀ st', _run_commands sh defn "commands" st'
                 = (Ok 0%Z, st' ++ [Call defn "commands"])) as Hrun.
  { intros st'. unfold _run_commands. by rewrite emit_bind, Hnone. }
  split; [apply Hrun|]. split.
  - unfold run_pipeline, print. rewrite emit_bind.
    rewrite (bind_ok _ _ _ _ _ (Hrun _)). simpl.
    destruct (run_commands_trace sh defn "completed"
      ((st ++ [Print ("Executing " +:+ key)]) ++ [Call defn "commands"]))
      as (r & k & Hr).
    destruct r as [rc|e].
    + rewrite (bind_ok _ _ _ _ _ Hr). exists (Ok tt), k, [Print ""].
      split; [|by right]. unfold emit. f_equal. by trace_eq.
    + rewrite (bind_raise _ _ _ _ _ Hr). exists (Raise e), k, [].
      split; [|by left]. f_equal. by trace_eq.
  - intros n hs Hn Hhs. unfold run_pipeline, print. rewrite emit_bind.
    rewrite (bind_ok _ _ _ _ _ (Hrun _)). simpl.
    destruct (run_commands_named sh defn "completed" n hs
      ((st ++ [Print ("Executing " +:+ key)]) ++ [Call defn "commands"]) Hn Hhs)
      as (k & rc & Hr & Hstop).
    rewrite (bind_ok _ _ _ _ _ Hr). exists k, rc.
    rewrite (shell_commands_named _ _ _ _ Hn Hhs) in Hstop.
    unfold run_block. rewrite (shell_commands_named _ _ _ _ Hn Hhs).
    split.
    + unfold emit. f_equal. by trace_eq.
    + revert Hstop. by trace_eq.
Qed.

Lemma no_commands_key_completes_witness :
  _run_commands Sample.shell Sample.docs_defn "commands" []
  = (Ok 0%Z, [] ++ [Call Sample.docs_defn "commands"])
  ∧ (∃ r k tl,
       run_pipeline Sample.shell false "watch.yaml:docs" Sample.docs_defn []
       = (r, [] ++ [Print ("Executing " +:+ "watch.yaml:docs");
                    Call Sample.docs_defn "commands"]
                ++ run_block Sample.docs_defn "completed" k ++ tl)
       ∧ (tl = [] ∨ tl = [Print ""]))
  ∧ ∃ k rc,
      run_pipeline Sample.shell false "watch.yaml:docs" Sample.docs_defn []
      = (Ok tt,
         [] ++ [Print ("Executing " +:+ "watch.yaml:docs");
                Call Sample.docs_defn "commands"]
            ++ (Call Sample.docs_defn "completed"
                  :: map Exec (take k (map (with_name "docs")
                                           ["false"; "echo done"])))
            ++ [Print ""])
      ∧ stops_at_first_failure Sample.shell
          ([] ++ [Print ("Executing " +:+ "watch.yaml:docs");
                  Call Sample.docs_defn "commands";
                  Call Sample.docs_defn "completed"])
          (map (with_name "docs") ["false"; "echo done"]) k rc.
Proof.
  destruct (no_commands_key_completes Sample.shell "watch.yaml:docs"
              Sample.docs_defn [] eq_refl) as (Hphase & Hcalls & Hruns).
  split; [exact Hphase|]. split; [exact Hcalls|].
  apply (Hruns "docs" ["false"; "echo done"]); reflexivity.
Defined.

(** The [completed] list of a definition without [commands] does run: of
    [false; echo done] the first command reaches the shell. *)
Example completed_runs_without_commands :
  execs (run_pipeline Sample.shell false "watch.yaml:docs" Sample.docs_defn []).2
  = ["false"].
Proof. by vm_compute. Qed.

(** ** C2 *)

Section Claims.

Variable sh : list io → string → Z.
Variable iglob : string → list string.
Variable path_exists : string → bool.
Variable load_yaml : string → option (list (string * gmap string value)).
Variable observer_start : list string → bool.

(** The calls of a pipeline are calls for its definition. *)
Lemma run_pipeline_calls skip k defn st :
  ∃ r tr, run_pipeline sh skip k defn st = (r, st ++ tr)
          ∧ ∀ d hook, (d, hook) ∈ calls tr → d = defn.
Proof.
  assert (∀ hook n d h, (d, h) ∈ calls (run_block defn hook n) → d = defn) as Hb.
  { intros hook n d h. rewrite calls_run_block, list_elem_of_singleton.
    by intros [= -> _]. }
  destruct skip.
  - destruct (run_pipeline_skip sh k defn st) as (r & n & ->).
    eexists _, _. split; [done|]. apply Hb.
  - destruct (run_pipeline_run sh k defn st) as (r & n & tl & -> & Htl).
    eexists _, _. split; [done|]. intros d h.
    change (Print ("Executing " +:+ k) :: run_block defn "commands" n ++ tl)
      with ([Print ("Executing " +:+ k)] ++ run_block defn "commands" n ++ tl).
    rewrite !calls_app, !elem_of_app.
    intros [Hin|[Hin|Hin]];
      [simpl in Hin; by apply elem_of_nil in Hin|by eapply Hb|].
    destruct Htl as [->|(hook & m & _ & [->| ->])].
    + by apply elem_of_nil in Hin.
    + by eapply Hb.
    + rewrite calls_app, elem_of_app in Hin.
      destruct Hin as [Hin|Hin]; [by eapply Hb|by apply elem_of_nil in Hin].
Qed.

(** C2. In a cycle the pipeline of a definition is executed at most once,
    however many of its handlers recorded a change: every call of
    [_run_commands] is for a definition that has a key, for every key the
    calls are those of at most one run, and the keys in
    [triggered_monitor_defn_keys] at the end of the loop are exactly the
    keys that got their one run. *)
Theorem definition_fires_at_most_once
    (deliveries : list (nat * ChangeEvent)) (self : FilesWatcher)
    (st : list io) :
  (∃ r tr,
     start sh iglob path_exists load_yaml observer_start deliveries self st
     = (r, st ++ tr)
     ∧ (∀ defn hook, (defn, hook) ∈ calls tr → is_Some (key_of defn))
     ∧ ∀ key, hooks_for key tr ∈ one_run)
  ∧ (∃ r tr,
       run_triggered sh path_exists self st = (r, st ++ tr)
       ∧ (∀ defn hook, (defn, hook) ∈ calls tr → is_Some (key_of defn))
       ∧ ∀ key, hooks_for key tr ∈ one_run
           ∧ ∀ T, r = Ok T → key ∈ T ↔ hooks_for key tr ≠ []).
Proof.
  set (K := λ tr : list io,
         ∀ defn hook, (defn, hook) ∈ calls tr → is_Some (key_of defn)).
  assert (∀ self' st', ∃ r tr,
            run_triggered sh path_exists self' st' = (r, st' ++ tr)
            ∧ K tr
            ∧ ∀ key, hooks_for key tr ∈ one_run
                ∧ ∀ T, r = Ok T → key ∈ T ↔ hooks_for key tr ≠ []) as Hloop.
  { intros self' st'. unfold run_triggered.
    destruct (for_handlers_once sh (has_skip_file path_exists (args self'))
                (event_handlers self') ∅ st') as (r & tr & Hrun & Hkeys).
    destruct (for_handlers_trace sh K (has_skip_file path_exists (args self'))
                (event_handlers self')) with (T := (∅ : gset string)) (st := st')
      as (r' & tr' & Hrun' & HK).
    - intros d h Hin. by apply elem_of_nil in Hin.
    - intros a b Ha Hb d h. rewrite calls_app, elem_of_app. intros [?|?]; eauto.
    - intros h k st'' _ _ Hkey.
      destruct (run_pipeline_calls (has_skip_file path_exists (args self')) k
                  (monitor_defn h) st'') as (r' & tr' & Hrun' & Hcalls).
      exists r', tr'. split; [done|]. intros d hook Hin.
      rewrite (Hcalls d hook Hin), (key_of_lookup _ _ Hkey). by eexists.
    - rewrite Hrun in Hrun'. injection Hrun' as <- <-%app_inv_head.
      exists r, tr. split; [done|]. split; [done|]. intros key.
      destruct (Hkeys key) as (Hone & _ & Hfinal). split; [done|].
      intros T HT. rewrite (Hfinal T HT), elem_of_empty. tauto. }
  split; [|apply Hloop].
  apply (start_trace sh iglob path_exists load_yaml observer_start
           (λ tr, K tr ∧ ∀ key, hooks_for key tr ∈ one_run)).
  - split; [|intros key; apply nil_one_run].
    intros d h Hin. by apply elem_of_nil in Hin.
  - intros ms tr [HK Htr]. split.
    + intros d h. rewrite calls_app, calls_prints. apply HK.
    + intros key. rewrite hooks_for_app, hooks_for_prints. apply Htr.
  - intros self' st' _.
    destruct (Hloop self' st') as (r & tr & Hrun & HK & Hkeys).
    exists r, tr. split; [done|]. split; [done|]. intros key. apply Hkeys.
Qed.

(** ** C9 *)

(** C9. The [started] list is never executed: in a cycle [_run_commands] is
    only ever called with the keys [skipped], [commands], [completed] and
    [error]. *)
Theorem started_is_never_run
    (deliveries : list (nat * ChangeEvent)) (self : FilesWatcher)
    (st : list io) :
  ∃ r tr,
    start sh iglob path_exists load_yaml observer_start deliveries self st
    = (r, st ++ tr)
    ∧ ∀ defn hook, (defn, hook) ∈ calls tr →
                   hook ∈ pipeline_hooks ∧ hook ≠ "started".
Proof.
  set (P := λ tr : list io, ∀ defn hook, (defn, hook) ∈ calls tr →
                              hook ∈ pipeline_hooks ∧ hook ≠ "started").
  assert (P []) as Hnil by (intros d h Hin; by apply elem_of_nil in Hin).
  assert (∀ a b, P a → P b → P (a ++ b)) as Happ.
  { intros a b Ha Hb d h. rewrite calls_app, elem_of_app. intros [?|?]; eauto. }
  assert (∀ d h k, h ∈ pipeline_hooks → P (run_block d h k)) as Hblock.
  { intros d h k Hh d' h'. rewrite calls_run_block, list_elem_of_singleton.
    intros [= -> ->]. split; [done|]. intros ->.
    unfold pipeline_hooks in Hh. repeat (apply elem_of_cons in Hh as [Hh|Hh]; [done|]).
    by apply elem_of_nil in Hh. }
  assert (∀ ms, P (map Print ms)) as Hprints.
  { intros ms d h. rewrite calls_prints. intros Hin. by apply elem_of_nil in Hin. }
  assert ("skipped" ∈ pipeline_hooks ∧ "commands" ∈ pipeline_hooks
          ∧ "completed" ∈ pipeline_hooks ∧ "error" ∈ pipeline_hooks)
    as (Hs & Hc & Hd & He).
  { unfold pipeline_hooks. repeat split; repeat constructor. }
  apply (start_trace sh iglob path_exists load_yaml observer_start P);
    [done|by intros; apply Happ|].
  intros self' st' _. unfold run_triggered.
  apply (for_handlers_trace sh P); [done|done|].
  intros h k st'' _ _ _. destruct (has_skip_file path_exists (args self')).
  - destruct (run_pipeline_skip sh k (monitor_defn h) st'') as (r & n & ->).
    eexists _, _. split; [done|]. by apply Hblock.
  - destruct (run_pipeline_run sh k (monitor_defn h) st'')
      as (r & n & tl & -> & Htl).
    eexists _, _. split; [done|].
    apply (Happ [Print _]); [apply (Hprints [_])|].
    apply Happ; [by apply Hblock|].
    destruct Htl as [->|(hook & m & Hhook & [->| ->])]; [done|..].
    + destruct Hhook as [-> | ->]; by apply Hblock.
    + apply Happ; [|apply (Hprints [_])].
      destruct Hhook as [-> | ->]; by apply Hblock.
Qed.

End Claims.

Lemma definition_fires_at_most_once_witness :
  (∃ r tr,
     start Sample.shell Sample.glob Sample.file_exists Sample.yaml
       Sample.observer_ok Sample.deliveries (Sample.watching None) []
     = (r, [] ++ tr)
     ∧ (∀ defn hook, (defn, hook) ∈ calls tr → is_Some (key_of defn))
     ∧ ∀ key, hooks_for key tr ∈ one_run)
  ∧ (∃ r tr,
       run_triggered Sample.shell Sample.file_exists (Sample.watching None) []
       = (r, [] ++ tr)
       ∧ (∀ defn hook, (defn, hook) ∈ calls tr → is_Some (key_of defn))
       ∧ ∀ key, hooks_for key tr ∈ one_run
           ∧ ∀ T, r = Ok T → key ∈ T ↔ hooks_for key tr ≠ []).
Proof.
  apply (definition_fires_at_most_once Sample.shell Sample.glob
           Sample.file_exists Sample.yaml Sample.observer_ok
           Sample.deliveries (Sample.watching None) []).
Defined.

(** Two handlers of [build] changed, under [src] and under [lib]: its
    pipeline ran once. *)
Example two_targets_one_run :
  let tr := (start Sample.shell Sample.glob Sample.file_exists Sample.yaml
               Sample.observer_ok Sample.deliveries
               (Sample.watcher (Sample.command_line None)) []).2 in
  hooks_for "watch.yaml:build" tr = ["commands"; "error"]
  ∧ hooks_for "watch.yaml:docs" tr = ["commands"; "completed"].
Proof. by vm_compute. Qed.

Lemma started_is_never_run_witness :
  ∃ r tr,
    start Sample.shell Sample.glob Sample.file_exists Sample.yaml
      Sample.observer_ok Sample.deliveries
      (Sample.watcher (Sample.command_line None)) []
    = (r, [] ++ tr)
    ∧ ∀ defn hook, (defn, hook) ∈ calls tr →
                   hook ∈ pipeline_hooks ∧ hook ≠ "started".
Proof.
  apply (started_is_never_run Sample.shell Sample.glob Sample.file_exists
           Sample.yaml Sample.observer_ok Sample.deliveries
           (Sample.watcher (Sample.command_line None)) []).
Defined.

(** ** C6 *)

Lemma skipped_blocks_app runs1 runs2 :
  skipped_blocks (runs1 ++ runs2) = skipped_blocks runs1 ++ skipped_blocks runs2.
Proof. unfold skipped_blocks. apply flat_map_app. Qed.

Lemma hooks_for_skipped_blocks key runs :
  Forall (λ h, h = "skipped") (hooks_for key (skipped_blocks runs)).
Proof.
  induction runs as [|[d k] runs IH]; [constructor|].
  change (skipped_blocks ((d, k) :: runs))
    with (run_block d "skipped" k ++ skipped_blocks runs).
  rewrite hooks_for_app, hooks_for_block. apply Forall_app. split; [|done].
  case_bool_decide; repeat constructor.
Qed.

Section SkipFile.

Variable sh : list io → string → Z.
Variable iglob : string → list string.
Variable path_exists : string → bool.
Variable load_yaml : string → option (list (string * gmap string value)).
Variable observer_start : list string → bool.

Lemma has_skip_file_true a f :
  skip_file a = Some f → f ≠ "" → path_exists f = true →
  has_skip_file path_exists a = true.
Proof.
  intros Hf Hne Hex. unfold has_skip_file. rewrite Hf.
  by rewrite bool_decide_eq_false_2.
Qed.

(** With the skip file, the loop leaves nothing in the trace but calls on
    [skipped], each for the definition of a handler that changed. *)
Lemma for_handlers_skipped hs T st :
  ∃ r runs,
    for_handlers sh true hs T st = (r, st ++ skipped_blocks runs)
    ∧ ∀ d k, (d, k) ∈ runs →
             ∃ h, h ∈ hs ∧ has_change h = true ∧ monitor_defn h = d.
Proof.
  set (P := λ tr : list io, ∃ runs, tr = skipped_blocks runs
              ∧ ∀ d k, (d, k) ∈ runs →
                       ∃ h, h ∈ hs ∧ has_change h = true ∧ monitor_defn h = d).
  destruct (for_handlers_trace sh P true hs) with (T := T) (st := st)
    as (r & tr & Hrun & runs & -> & Horigin).
  - exists []. split; [done|]. intros d k Hin. by apply elem_of_nil in Hin.
  - intros a b (ra & -> & Ha) (rb & -> & Hb). exists (ra ++ rb).
    split; [by rewrite skipped_blocks_app|].
    intros d k. rewrite elem_of_app. intros [?|?]; eauto.
  - intros h k st' Hin Hch _.
    destruct (run_pipeline_skip sh k (monitor_defn h) st') as (r & n & ->).
    exists r, (run_block (monitor_defn h) "skipped" n). split; [done|].
    exists [(monitor_defn h, n)]. split; [unfold skipped_blocks; simpl; by rewrite app_nil_r|].
    intros d k'. rewrite list_elem_of_singleton. intros [= -> ->]. eauto.
  - by exists r, runs.
Qed.

End SkipFile.

(** The loop alone, on the handlers the sample cycle leaves. *)
Example skip_file_loop :
  let tr := (run_triggered Sample.shell Sample.file_exists
               (Sample.watching (Some "tmp/skip")) []).2 in
  execs tr = ["echo build skipped"; "echo docs skipped"]
  ∧ printed tr = [].
Proof. by vm_compute. Qed.

(** With the skip file the sample cycle runs the two [skipped] commands and
    nothing else. *)
Example skip_file_cycle :
  let tr := (start Sample.shell Sample.glob Sample.file_exists Sample.yaml
               Sample.observer_ok Sample.deliveries
               (Sample.watcher (Sample.command_line (Some "tmp/skip"))) []).2 in
  execs tr = ["echo build skipped"; "echo docs skipped"]
  ∧ map snd (calls tr) = ["skipped"; "skipped"].
Proof. by vm_compute. Qed.

(** ** C7 *)

Section Globs.

Variable iglob : string → list string.

Lemma for_globs_nothing defn search globs acc :
  (∀ g, g ∈ globs → iglob g = []) →
  fold_left (for_glob iglob defn search) globs acc = acc.
Proof.
  revert acc. induction globs as [|g globs IH]; intros acc Hall; simpl; [done|].
  unfold for_glob at 2. rewrite (Hall g) by apply list_elem_of_here. simpl.
  apply IH. intros g' Hin. apply Hall. by apply list_elem_of_further.
Qed.

Lemma for_glob_found defn search g acc :
  acc.2 = true ∨ iglob g ≠ [] → (for_glob iglob defn search acc g).2 = true.
Proof.
  unfold for_glob. revert acc.
  induction (iglob g) as [|p ps IH]; intros acc; simpl.
  - by intros [?|?].
  - intros _. apply IH. by left.
Qed.

(** One glob that expands is enough for [found_path]. *)
Lemma for_globs_found defn search globs self g :
  g ∈ globs → iglob g ≠ [] →
  (for_globs iglob defn search globs self).2 = true.
Proof.
  unfold for_globs. generalize (self, false).
  induction globs as [|g' globs IH]; intros acc Hin Hne; simpl.
  { by apply elem_of_nil in Hin. }
  apply elem_of_cons in Hin as [<-|Hin]; [|by apply IH].
  assert (∀ acc', acc'.2 = true →
                  (fold_left (for_glob iglob defn search) globs acc').2 = true)
    as Hkeep.
  { clear. induction globs as [|g'' globs IH]; intros acc' Hacc; simpl; [done|].
    apply IH, for_glob_found. by left. }
  apply Hkeep, for_glob_found. by right.
Qed.

(** C7, amended. A search whose list of globs is not empty and gives no
    path at all is reported, by a line that names the last glob of the
    list; with [--exit_on_error] the program then exits with code 1, and
    without it the set-up goes on with the searches that remain. *)
Theorem empty_search_is_reported
    (defn : gmap string value) (search : search_defn) (self : FilesWatcher)
    (st : list io) (ps : strs) (g : string) :
  paths search = Some ps →
  last (as_list ps) = Some g →
  (∀ g', g' ∈ as_list ps → iglob g' = []) →
  for_search iglob defn search self st
  = (if exit_on_error (args self) then Raise (SystemExit 1) else Ok self,
     st ++ [Print (glob_warning g)])
  ∧ ∀ rest, exit_on_error (args self) = false →
            for_searches iglob defn (search :: rest) self st
            = for_searches iglob defn rest self (st ++ [Print (glob_warning g)]).
Proof.
  intros Hps Hlast Hnone.
  assert (for_search iglob defn search self st
          = (if exit_on_error (args self) then Raise (SystemExit 1) else Ok self,
             st ++ [Print (glob_warning g)])) as Hrun.
  { unfold for_search, for_globs. rewrite Hps.
    rewrite (for_globs_nothing _ _ _ _ Hnone), Hlast. simpl.
    unfold print. rewrite emit_bind. fold (glob_warning g).
    by destruct (exit_on_error (args self)). }
  split; [done|]. intros rest Hlenient. simpl.
  rewrite Hlenient in Hrun. by rewrite (bind_ok _ _ _ _ _ Hrun).
Qed.

(** A glob that gives nothing goes unreported when another glob of the
    same list gives a path. *)
Lemma matching_search_is_silent defn search self st ps g :
  paths search = Some ps → g ∈ as_list ps → iglob g ≠ [] →
  ∃ self', for_search iglob defn search self st = (Ok self', st).
Proof.
  intros Hps Hin Hne. unfold for_search. rewrite Hps.
  pose proof (for_globs_found defn search (as_list ps) self g Hin Hne) as Hfound.
  destruct (for_globs _ _ _ _ _) as [self' found]. simpl in Hfound. subst found.
  exists self'. by destruct (last _).
Qed.

End Globs.

(** C7, as the specification words it, fails: of the globs [src] and
    [generated], the second gives no path and nothing is printed. *)
Lemma empty_glob_goes_unreported :
  ¬ every_empty_glob_reported Sample.glob Sample.build_defn
      {| name := None; paths := Some (Strs ["src"; "generated"]);
         patterns := None |}
      (Sample.watcher (Sample.command_line None)) [].
Proof.
  intros H.
  specialize (H (Strs ["src"; "generated"]) "generated" eq_refl).
  assert (glob_warning "generated" ∈ @nil string) as Hin.
  { apply H; [|reflexivity]. simpl. apply list_elem_of_further, list_elem_of_here. }
  by apply elem_of_nil in Hin.
Qed.

Lemma empty_search_is_reported_witness :
  for_search Sample.glob Sample.build_defn
    {| name := None; paths := Some (Strs ["generated"; "vendor"]); patterns := None |}
    (Sample.watcher (Sample.command_line None)) []
  = (if exit_on_error (args (Sample.watcher (Sample.command_line None)))
     then Raise (SystemExit 1)
     else Ok (Sample.watcher (Sample.command_line None)),
     [] ++ [Print (glob_warning "vendor")])
  ∧ ∀ rest,
      exit_on_error (args (Sample.watcher (Sample.command_line None))) = false →
      for_searches Sample.glob Sample.build_defn
        ({| name := None; paths := Some (Strs ["generated"; "vendor"]);
            patterns := None |} :: rest)
        (Sample.watcher (Sample.command_line None)) []
      = for_searches Sample.glob Sample.build_defn rest
          (Sample.watcher (Sample.command_line None))
          ([] ++ [Print (glob_warning "vendor")]).
Proof.
  apply (empty_search_is_reported Sample.glob Sample.build_defn _
           (Sample.watcher (Sample.command_line None)) []
           (Strs ["generated"; "vendor"]) "vendor");
    [reflexivity|reflexivity|].
  intros g' Hin. simpl in Hin.
  apply elem_of_cons in Hin as [->|Hin]; [reflexivity|].
  apply list_elem_of_singleton in Hin as ->. reflexivity.
Defined.

(** ** C5 *)

Section Defaults.

Variable iglob : string → list string.

(** The handlers a search adds carry the definition they were made for;
    the defaults in force are left as they are. *)
Lemma for_glob_handlers defn search g acc :
  _monitor_defns_defaults (for_glob iglob defn search acc g).1
  = _monitor_defns_defaults acc.1
  ∧ ∀ h, h ∈ event_handlers (for_glob iglob defn search acc g).1 →
         h ∈ event_handlers acc.1 ∨ monitor_defn h = defn.
Proof.
  unfold for_glob. revert acc.
  induction (iglob g) as [|p ps IH]; intros acc; simpl; [by split; auto|].
  destruct (IH (_add_monitor p defn search acc.1, true)) as [Hd Hh].
  split; [by rewrite Hd|]. intros h Hin.
  destruct (Hh h Hin) as [Hold|?]; [|by right]. simpl in Hold.
  apply elem_of_app in Hold as [?|Hnew]; [by left|].
  apply list_elem_of_singleton in Hnew as ->. by right.
Qed.

Lemma for_globs_handlers defn search globs self :
  _monitor_defns_defaults (for_globs iglob defn search globs self).1
  = _monitor_defns_defaults self
  ∧ ∀ h, h ∈ event_handlers (for_globs iglob defn search globs self).1 →
         h ∈ event_handlers self ∨ monitor_defn h = defn.
Proof.
  unfold for_globs.
  change (_monitor_defns_defaults self)
    with (_monitor_defns_defaults (self, false).1).
  change (event_handlers self) with (event_handlers (self, false).1).
  generalize (self, false).
  induction globs as [|g globs IH]; intros acc; simpl; [by split; auto|].
  destruct (IH (for_glob iglob defn search acc g)) as [Hd Hh].
  destruct (for_glob_handlers defn search g acc) as [Hd' Hh'].
  split; [by rewrite Hd|]. intros h Hin.
  destruct (Hh h Hin) as [Hold|?]; [|by right]. by apply Hh'.
Qed.

Lemma for_search_handlers defn search self st self' st' :
  for_search iglob defn search self st = (Ok self', st') →
  _monitor_defns_defaults self' = _monitor_defns_defaults self
  ∧ ∀ h, h ∈ event_handlers self' →
         h ∈ event_handlers self ∨ monitor_defn h = defn.
Proof.
  unfold for_search. destruct (paths search) as [ps|]; [|done].
  pose proof (for_globs_handlers defn search (as_list ps) self) as Hg.
  destruct (for_globs _ _ _ _ _) as [self1 found]. simpl in Hg.
  assert (∀ st1, (mret self1 : M FilesWatcher) st1 = (Ok self', st') →
    _monitor_defns_defaults self' = _monitor_defns_defaults self
    ∧ ∀ h, h ∈ event_handlers self' →
           h ∈ event_handlers self ∨ monitor_defn h = defn) as Hret
    by (by intros st1 [= <- _]).
  destruct (last _); [|apply Hret]. destruct found; simpl; [apply Hret|].
  unfold print. rewrite emit_bind.
  destruct (exit_on_error _); [done|apply Hret].
Qed.

Lemma for_searches_handlers defn searches :
  ∀ self st self' st',
    for_searches iglob defn searches self st = (Ok self', st') →
    _monitor_defns_defaults self' = _monitor_defns_defaults self
    ∧ ∀ h, h ∈ event_handlers self' →
           h ∈ event_handlers self ∨ monitor_defn h = defn.
Proof.
  induction searches as [|s searches IH]; intros self st self' st'; simpl.
  { intros [= <- _]. auto. }
  unfold mbind, M_bind.
  destruct (for_search iglob defn s self st) as [[self1|e] st1] eqn:Hs; [|done].
  intros Hrest. destruct (for_search_handlers _ _ _ _ _ _ Hs) as [Hd Hh].
  destruct (IH _ _ _ _ Hrest) as [Hd' Hh'].
  split; [congruence|]. intros h Hin.
  destruct (Hh' h Hin) as [?|?]; [by apply Hh|by right].
Qed.

(** Every handler the loop over a source adds was made for a definition of
    the source, merged with the defaults met before it. *)
Lemma for_defns_handlers source defns :
  ∀ self st self' st',
    for_defns iglob source defns self st = (Ok self', st') →
    ∀ h, h ∈ event_handlers self' →
      h ∈ event_handlers self
      ∨ ∃ pre n d post,
          defns = pre ++ (n, d) :: post ∧ n ≠ "__defaults__"
          ∧ monitor_defn h
            = merge_defn (defaults_after (_monitor_defns_defaults self) pre)
                         source n d.
Proof.
  induction defns as [|[n d] defns IH]; intros self st self' st'; simpl.
  { intros [= <- _] h Hin. by left. }
  case_bool_decide as Hn.
  - intros Hrun h Hin. destruct (IH _ _ _ _ Hrun h Hin) as [?|Hnew]; [by left|].
    destruct Hnew as (pre & n' & d' & post & -> & Hn' & Hh). right.
    exists ((n, d) :: pre), n', d', post. split; [done|]. split; [done|].
    rewrite Hh. unfold defaults_after. simpl. by rewrite bool_decide_eq_true_2.
  - unfold mbind, M_bind.
    destruct (get_searches _ st) as [[searches|e] st1]; [|done].
    destruct (for_searches iglob _ searches self st1) as [[self1|e] st2] eqn:Hs;
      [|done].
    intros Hrun h Hin.
    destruct (for_searches_handlers _ _ _ _ _ _ Hs) as [Hd Hh].
    destruct (IH _ _ _ _ Hrun h Hin) as [Hold|Hnew].
    + destruct (Hh h Hold) as [?|Hmade]; [by left|]. right.
      exists [], n, d, defns. by rewrite Hmade.
    + destruct Hnew as (pre & n' & d' & post & -> & Hn' & Hmade). right.
      exists ((n, d) :: pre), n', d', post. split; [done|]. split; [done|].
      rewrite Hmade, Hd. unfold defaults_after. simpl.
      by rewrite bool_decide_eq_false_2.
Qed.

(** The definition of a handler has the name and the key the set-up gave
    it, which is what the pipeline reads. *)
Lemma merge_defn_named dflt source n d :
  merge_defn dflt source n d !! "__name" = Some (VStr n)
  ∧ merge_defn dflt source n d !! "__key" = Some (VStr (source +:+ ":" +:+ n)).
Proof.
  unfold merge_defn. split.
  - rewrite lookup_insert_ne by done. apply lookup_insert_eq.
  - apply lookup_insert_eq.
Qed.

Lemma start_monitors_named source defns self st self' st' h :
  _start_monitors iglob source defns self st = (Ok self', st') →
  h ∈ event_handlers self' →
  h ∈ event_handlers self
  ∨ ∃ n, monitor_defn h !! "__name" = Some (VStr n)
         ∧ key_of (monitor_defn h) = Some (source +:+ ":" +:+ n).
Proof.
  intros Hrun Hin.
  destruct (for_defns_handlers _ _ _ _ _ _ Hrun h Hin) as [?|Hnew]; [by left|].
  destruct Hnew as (pre & n & d & post & _ & _ & ->). right. exists n.
  destruct (merge_defn_named (defaults_after (_monitor_defns_defaults (set_defaults ∅ self)) pre)
              source n d) as [Hname Hkey].
  split; [done|]. by apply key_of_lookup.
Qed.

(** The defaults in force are those of the last [__defaults__] entry met,
    and there are none before the first. *)
Lemma defaults_after_none d0 pre :
  "__defaults__" ∉ pre.*1 → defaults_after d0 pre = d0.
Proof.
  revert d0. induction pre as [|[n d] pre IH]; intros d0 Hnot; [done|].
  unfold defaults_after. simpl. rewrite bool_decide_eq_false_2.
  - apply IH. intros Hin. apply Hnot. by apply list_elem_of_further.
  - intros ->. apply Hnot. apply list_elem_of_here.
Qed.

Lemma defaults_after_last d0 pre dflt post :
  "__defaults__" ∉ post.*1 →
  defaults_after d0 (pre ++ ("__defaults__", dflt) :: post) = dflt.
Proof.
  intros Hnot. unfold defaults_after. rewrite fold_left_app. simpl.
  by apply defaults_after_none.
Qed.

(** The merge is shallow: at a key other than the two the program sets, the
    definition's own value if it has one, the default otherwise. *)
Lemma merge_defn_lookup dflt source n d k :
  k ≠ "__name" → k ≠ "__key" →
  merge_defn dflt source n d !! k
  = match d !! k with Some v => Some v | None => dflt !! k end.
Proof.
  intros Hn Hk. unfold merge_defn.
  rewrite lookup_insert_ne, lookup_insert_ne by done.
  rewrite lookup_union. destruct (d !! k), (dflt !! k); done.
Qed.

(** C5, amended. In a source the [__defaults__] record is merged, shallowly
    and key by key, into every definition that follows it: every handler
    the source adds is made for one of its definitions, whose record is the
    definition's own keys over the defaults met before it (none before the
    first [__defaults__] entry), a key the definition sets replacing the
    default. The defaults left by another source play no part. *)
Theorem defaults_reach_following_definitions
    (source : string) (defns : list (string * gmap string value))
    (self self' : FilesWatcher) (st st' : list io) (h : MonitorAnyFileChange) :
  _start_monitors iglob source defns self st = (Ok self', st') →
  h ∈ event_handlers self' →
  (h ∈ event_handlers self
   ∨ ∃ pre n d post,
       defns = pre ++ (n, d) :: post ∧ n ≠ "__defaults__"
       ∧ monitor_defn h = merge_defn (defaults_in_force pre) source n d
       ∧ (∀ k, k ≠ "__name" → k ≠ "__key" →
            monitor_defn h !! k
            = match d !! k with
              | Some v => Some v
              | None => defaults_in_force pre !! k
              end)
       ∧ ("__defaults__" ∉ pre.*1 → defaults_in_force pre = ∅)
       ∧ (∀ p1 dflt p2, pre = p1 ++ ("__defaults__", dflt) :: p2 →
            "__defaults__" ∉ p2.*1 → defaults_in_force pre = dflt))
  ∧ ∀ other,
      _start_monitors iglob source defns (set_defaults other self) st
      = _start_monitors iglob source defns self st.
Proof.
  intros Hrun Hin. split; [|done].
  destruct (for_defns_handlers _ _ _ _ _ _ Hrun h Hin) as [?|Hnew]; [by left|].
  destruct Hnew as (pre & n & d & post & -> & Hn & Hmade). right.
  exists pre, n, d, post. simpl in Hmade. fold (defaults_in_force pre) in Hmade.
  split; [done|]. split; [done|]. split; [done|].
  split; [intros k Hk1 Hk2; rewrite Hmade; by apply merge_defn_lookup|].
  split; [apply defaults_after_none|].
  intros p1 dflt p2 -> Hnot. by apply defaults_after_last.
Qed.

End Defaults.

(** C5, as the specification words it, fails: in [late.yaml] the
    definition [build] comes before [__defaults__], and its handler has no
    [completed] key although the defaults have one. *)
Lemma defaults_miss_earlier_definition :
  ¬ defaults_reach_every_definition Sample.glob "late.yaml" Sample.late_yaml
      (Sample.watcher (Sample.command_line None)).
Proof.
  intros H.
  set (search := {| name := None; paths := Some (Strs ["src"; "lib"]);
                    patterns := None |}).
  set (defn := merge_defn ∅ "late.yaml" "build" Sample.build).
  assert (monitor_defn (new_handler "src" defn search) !! "completed"
          = Sample.defaults !! "completed") as Habs.
  { eapply (H Sample.defaults "build" Sample.build).
    - apply list_elem_of_further, list_elem_of_here.
    - apply list_elem_of_here.
    - done.
    - reflexivity.
    - apply list_elem_of_here.
    - reflexivity.
    - reflexivity.
    - done.
    - done. }
  vm_compute in Habs. discriminate Habs.
Qed.

Lemma defaults_reach_following_definitions_witness :
  let self := Sample.watcher (Sample.command_line None) in
  let h := new_handler "docs" Sample.docs_defn Sample.docs_search in
  ∃ self' st',
    _start_monitors Sample.glob "watch.yaml" Sample.watch_yaml self []
    = (Ok self', st')
    ∧ h ∈ event_handlers self'
    ∧ (h ∈ event_handlers self
       ∨ ∃ pre n d post,
           Sample.watch_yaml = pre ++ (n, d) :: post ∧ n ≠ "__defaults__"
           ∧ monitor_defn h = merge_defn (defaults_in_force pre) "watch.yaml" n d
           ∧ (∀ k, k ≠ "__name" → k ≠ "__key" →
                monitor_defn h !! k
                = match d !! k with
                  | Some v => Some v
                  | None => defaults_in_force pre !! k
                  end)
           ∧ ("__defaults__" ∉ pre.*1 → defaults_in_force pre = ∅)
           ∧ (∀ p1 dflt p2, pre = p1 ++ ("__defaults__", dflt) :: p2 →
                "__defaults__" ∉ p2.*1 → defaults_in_force pre = dflt))
    ∧ ∀ other,
        _start_monitors Sample.glob "watch.yaml" Sample.watch_yaml
          (set_defaults other self) []
        = _start_monitors Sample.glob "watch.yaml" Sample.watch_yaml self [].
Proof.
  intros self h. eexists _, _.
  split; [reflexivity|].
  split; [do 2 apply list_elem_of_further; apply list_elem_of_here|].
  eapply (defaults_reach_following_definitions Sample.glob "watch.yaml"
            Sample.watch_yaml self _ [] _ h).
  - reflexivity.
  - do 2 apply list_elem_of_further. apply list_elem_of_here.
Defined.

(** The specification's example: a definition without [commands] inherits
    the default, one with [commands] replaces it whole. *)
Example commands_inherited_or_replaced :
  let dflt : gmap string value := {[ "commands" := VStr "A" ]} in
  merge_defn dflt "s.yaml" "x" ∅ !! "commands" = Some (VStr "A")
  ∧ merge_defn dflt "s.yaml" "y" {[ "commands" := VStr "B" ]} !! "commands"
    = Some (VStr "B").
Proof. by vm_compute. Qed.

(** A search tries the match at every position: it finds what [re.match]
    finds, and more. *)
Lemma re_match_search r s : Re.re_match r s = true → Re.re_search r s = true.
Proof.
  intros H. unfold Re.re_search. destruct s; simpl; by rewrite H.
Qed.

Lemma re_search_Matches r s :
  Re.re_search r s = true
  ↔ ∃ s' rest, s' ∈ Re.suffixes s ∧ Re.Matches r s' rest.
Proof.
  unfold Re.re_search. rewrite existsb_exists. split.
  - intros (s' & Hin & [rest Hrest]%re_match_Matches).
    exists s', rest. by rewrite list_elem_of_In.
  - intros (s' & rest & Hin & Hrest). exists s'.
    rewrite <- list_elem_of_In. split; [done|].
    apply re_match_Matches. eauto.
Qed.

(** ** C1 *)

Lemma add_file_files p self q :
  q ∈ _files (add_file p self) ↔ q ∈ _files self ∨ q = p.
Proof. unfold add_file. simpl. rewrite elem_of_union, elem_of_singleton. tauto. Qed.

(** The loop over the patterns records the path when one of them matches
    it with [re.match], and changes nothing otherwise. *)
Lemma for_patterns_files pats event self q :
  q ∈ _files (for_patterns pats event self)
  ↔ q ∈ _files self
    ∨ (q = src_path event
       ∧ ∃ r, r ∈ pats ∧ Re.re_match r (src_path event) = true).
Proof.
  induction pats as [|r pats IH]; simpl.
  - split; [by left|]. intros [?|(_ & r & Hin & _)]; [done|].
    by apply elem_of_nil in Hin.
  - destruct (Re.re_match r (src_path event)) eqn:Hr.
    + rewrite add_file_files. split.
      * intros [?| ->]; [by left|]. right. split; [done|].
        exists r. split; [apply list_elem_of_here|done].
      * intros [?|[-> _]]; [by left|by right].
    + rewrite IH. split.
      * intros [?|(-> & r' & Hin & Hr')]; [by left|]. right. split; [done|].
        exists r'. split; [by apply list_elem_of_further|done].
      * intros [?|(-> & r' & Hin & Hr')]; [by left|]. right. split; [done|].
        exists r'. split; [|done].
        apply elem_of_cons in Hin as [->|?]; [congruence|done].
Qed.

(** C1, as the specification words it, fails: the pattern [\.md$] is found
    by a search in [docs/index.md], and the event is not recorded, because
    the pattern does not match from the first character of the path. *)
Lemma search_match_is_not_recorded :
  ¬ records_by_search
      (new_handler "docs" Sample.docs_defn
         {| name := None; paths := Some (Str "docs");
            patterns := Some [Sample.md_suffix] |})
      {| src_path := "docs/index.md"; kind := modified |}.
Proof.
  intros H. specialize (H [Sample.md_suffix] eq_refl). simpl in H.
  assert ("docs/index.md" ∈ (∅ : gset string)) as Hin.
  { apply H. exists Sample.md_suffix. split; [apply list_elem_of_here|reflexivity]. }
  by apply elem_of_empty in Hin.
Qed.

(** C1, amended. An event delivered to a handler, whatever its kind, has
    its path recorded if and only if the search accepts it: with
    [patterns], when one of the patterns matches from the first character
    of the path (it need not reach the end of the path); without
    [patterns], when the path is not empty. Nothing else changes in the
    set of recorded paths. *)
Theorem event_recorded_iff_accepted
    (self : MonitorAnyFileChange) (event : ChangeEvent) (q : string) :
  q ∈ _files (dispatch self event)
  ↔ q ∈ _files self
    ∨ (q = src_path event ∧ accepted (_monitor self) (src_path event)).
Proof.
  assert (dispatch self event = _handle_event self event) as ->
    by (unfold dispatch; by destruct (kind event)).
  unfold _handle_event, accepted.
  destruct (patterns (_monitor self)) as [pats|].
  - rewrite for_patterns_files. split.
    + intros [?|(-> & r & Hin & Hr)]; [by left|]. right. split; [done|].
      apply re_match_Matches in Hr as [rest Hrest]. eauto.
    + intros [?|(-> & r & rest & Hin & Hrest)]; [by left|]. right.
      split; [done|]. exists r. split; [done|].
      apply re_match_Matches. eauto.
  - case_bool_decide as Hne.
    + rewrite add_file_files. split.
      * intros [?| ->]; [by left|by right].
      * intros [?|[-> _]]; [by left|by right].
    + split; [by left|]. intros [?|[_ ?]]; done.
Qed.

Lemma event_recorded_iff_accepted_witness :
  "docs/index.md"
    ∈ _files (dispatch (new_handler "docs" Sample.docs_defn Sample.docs_search)
                {| src_path := "docs/index.md"; kind := modified |})
  ↔ "docs/index.md" ∈ _files (new_handler "docs" Sample.docs_defn Sample.docs_search)
    ∨ ("docs/index.md" = "docs/index.md"
       ∧ accepted Sample.docs_search "docs/index.md").
Proof.
  apply (event_recorded_iff_accepted
           (new_handler "docs" Sample.docs_defn Sample.docs_search)
           {| src_path := "docs/index.md"; kind := modified |} "docs/index.md").
Defined.

(** The pattern [.*\.md$] records the page, and a path that does not end
    in [.md] is left out. *)
Example md_pattern_records :
  let h := new_handler "docs" Sample.docs_defn Sample.docs_search in
  elements (_files (dispatch h {| src_path := "docs/index.md"; kind := modified |}))
  = ["docs/index.md"]
  ∧ elements (_files (dispatch h {| src_path := "docs/index.mdx"; kind := created |}))
    = [].
Proof. by vm_compute. Qed.

(** Without patterns an event with an empty path is not recorded. *)
Example empty_path_not_recorded :
  let h := new_handler "src" Sample.build_defn
             {| name := None; paths := Some (Strs ["src"; "lib"]); patterns := None |} in
  _files (dispatch h {| src_path := ""; kind := deleted |}) = ∅.
Proof. reflexivity. Qed.

(** ** C8 *)

Section Replace.

Lemma append_cons x (a b : string) : String x a +:+ b = String x (a +:+ b).
Proof. done. Qed.

Lemma append_assoc (a b c : string) : (a +:+ b) +:+ c = a +:+ b +:+ c.
Proof.
  induction a as [|x a IH]; [done|]. rewrite !append_cons. by f_equal.
Qed.

Lemma length_append (a b : string) :
  String.length (a +:+ b) = String.length a + String.length b.
Proof.
  induction a as [|x a IH]; [done|]. rewrite append_cons. simpl. by f_equal.
Qed.

Lemma starts_with_app t r : Str.starts_with t (t +:+ r) = true.
Proof.
  induction t as [|x t IH]; [done|]. rewrite append_cons. simpl.
  by rewrite bool_decide_eq_true_2, IH.
Qed.

(** Whether [tok] starts [x] followed by [y] is decided inside [x] when
    [x] is long enough. *)
Lemma starts_with_longer tok :
  ∀ x y, String.length tok ≤ String.length x →
         Str.starts_with tok (x +:+ y) = Str.starts_with tok x.
Proof.
  induction tok as [|a tok IH]; intros x y Hlen; [done|].
  destruct x as [|b x]; simpl in Hlen; [lia|].
  rewrite append_cons. simpl. rewrite IH by lia. done.
Qed.

(** The scan passes over the rest of a replaced occurrence. *)
Lemma replace_from_skip tok new t rest :
  Str.replace_from tok new (t +:+ rest) (String.length t)
  = Str.replace_from tok new rest 0.
Proof.
  induction t as [|x t IH]; [done|]. rewrite append_cons. simpl. apply IH.
Qed.

(** An occurrence met by the scan is replaced, and the scan resumes after
    it. *)
Lemma replace_occurrence tok new p rest :
  tok ≠ "" → Str.free_before tok p = true →
  Str.replace tok new (p +:+ tok +:+ rest)
  = p +:+ new +:+ Str.replace tok new rest.
Proof.
  intros Htok. unfold Str.replace. induction p as [|c p IH]; intros Hfree.
  - destruct tok as [|a t]; [done|].
    change ("" +:+ String a t +:+ rest) with (String a (t +:+ rest)).
    change (Str.replace_from (String a t) new (String a (t +:+ rest)) 0)
      with (if Str.starts_with (String a t) (String a (t +:+ rest))
            then new +:+ Str.replace_from (String a t) new (t +:+ rest)
                           (String.length (String a t) - 1)
            else String a (Str.replace_from (String a t) new (t +:+ rest) 0)).
    assert (Str.starts_with (String a t) (String a (t +:+ rest)) = true) as ->
      by apply (starts_with_app (String a t) rest).
    replace (String.length (String a t) - 1) with (String.length t)
      by (simpl; lia).
    by rewrite replace_from_skip.
  - simpl in Hfree. apply andb_true_iff in Hfree as [Hhere Hfree].
    apply negb_true_iff in Hhere.
    change (String c p +:+ tok +:+ rest) with (String c (p +:+ tok +:+ rest)).
    change (Str.replace_from tok new (String c (p +:+ tok +:+ rest)) 0)
      with (if Str.starts_with tok (String c (p +:+ tok +:+ rest))
            then new +:+ Str.replace_from tok new (p +:+ tok +:+ rest)
                           (String.length tok - 1)
            else String c (Str.replace_from tok new (p +:+ tok +:+ rest) 0)).
    assert (Str.starts_with tok (String c (p +:+ tok +:+ rest)) = false) as ->.
    { change (String c (p +:+ tok +:+ rest)) with (String c p +:+ tok +:+ rest).
      rewrite <- append_assoc, starts_with_longer; [done|].
      rewrite length_append. simpl. lia. }
    by rewrite IH.
Qed.

(** A string without the token is left as it is. *)
Lemma replace_absent tok new s :
  Str.occurs tok s = false → Str.replace tok new s = s.
Proof.
  unfold Str.replace. induction s as [|c s IH]; [done|].
  intros Hocc. simpl in Hocc. apply orb_false_iff in Hocc as [Hhere Hlater].
  change (Str.replace_from tok new (String c s) 0)
    with (if Str.starts_with tok (String c s)
          then new +:+ Str.replace_from tok new s (String.length tok - 1)
          else String c (Str.replace_from tok new s 0)).
  by rewrite Hhere, IH.
Qed.

(** Every occurrence goes: in pieces joined by the token, the token is
    replaced between all of them. *)
Lemma replace_join tok new pieces last :
  tok ≠ "" →
  Forall (λ p, Str.free_before tok p = true) pieces →
  Str.occurs tok last = false →
  Str.replace tok new (Str.join tok pieces last) = Str.join new pieces last.
Proof.
  intros Htok Hpieces Hlast.
  induction Hpieces as [|p pieces Hp _ IH]; simpl.
  - by apply replace_absent.
  - by rewrite replace_occurrence, IH.
Qed.

Lemma starts_with_split tok :
  ∀ s, Str.starts_with tok s = true → ∃ rest, s = tok +:+ rest.
Proof.
  induction tok as [|a tok IH]; intros s; [by exists s|].
  destruct s as [|b s]; simpl; [done|].
  intros [Hab Hrest]%andb_true_iff. apply bool_decide_eq_true in Hab as ->.
  destruct (IH s Hrest) as [rest ->]. by exists rest.
Qed.

(** The first occurrence of the token cuts the string in two. *)
Lemma first_occurrence tok s :
  tok ≠ "" → Str.occurs tok s = true →
  ∃ p rest, s = p +:+ tok +:+ rest ∧ Str.free_before tok p = true.
Proof.
  intros Htok. induction s as [|c s IH]; intros Hocc.
  { simpl in Hocc. rewrite orb_false_r in Hocc. by destruct tok. }
  destruct (Str.starts_with tok (String c s)) eqn:Hhere.
  - destruct (starts_with_split _ _ Hhere) as [rest Hrest].
    by exists "", rest.
  - simpl in Hocc. rewrite Hhere in Hocc. simpl in Hocc.
    destruct (IH Hocc) as (p & rest & -> & Hfree).
    exists (String c p), rest. split; [done|].
    simpl. rewrite Hfree, andb_true_r. apply negb_true_iff.
    rewrite <- Hhere.
    change (String c (p +:+ tok +:+ rest)) with (String c p +:+ tok +:+ rest).
    rewrite <- (append_assoc (String c p) tok rest).
    symmetry. apply starts_with_longer. rewrite length_append. simpl. lia.
Qed.

(** Every string is pieces joined by the token, cut at each occurrence the
    scan meets. *)
Lemma join_exists tok s :
  tok ≠ "" →
  ∃ pieces last,
    s = Str.join tok pieces last
    ∧ Forall (λ p, Str.free_before tok p = true) pieces
    ∧ Str.occurs tok last = false.
Proof.
  intros Htok.
  assert (∀ n s, String.length s ≤ n →
            ∃ pieces last,
              s = Str.join tok pieces last
              ∧ Forall (λ p, Str.free_before tok p = true) pieces
              ∧ Str.occurs tok last = false) as Hall;
    [|by apply (Hall (String.length s) s)].
  clear s. induction n as [|n IH]; intros s Hlen.
  - destruct s; [|simpl in Hlen; lia]. exists [], "". split; [done|].
    split; [constructor|]. simpl. rewrite orb_false_r. by destruct tok.
  - destruct (Str.occurs tok s) eqn:Hocc.
    + destruct (first_occurrence tok s Htok Hocc) as (p & rest & -> & Hfree).
      destruct (IH rest) as (pieces & last & -> & Hpieces & Hlast).
      { rewrite !length_append in Hlen. destruct tok; [done|]. simpl in Hlen. lia. }
      exists (p :: pieces), last. split; [done|]. split; [by constructor|done].
    + exists [], s. split; [done|]. split; [constructor|done].
Qed.

End Replace.

(** C8, as the specification words it, fails: in
    [echo _MONITOR_NAME_MONITOR_NAME_] the token stands twice, the second
    time over the last character of the first; the scan replaces the first
    and passes over the second, [echo buildMONITOR_NAME_] is run. *)
Lemma overlapping_occurrence_is_kept :
  ¬ every_occurrence_replaced "build" "echo _MONITOR_NAME_MONITOR_NAME_".
Proof.
  intros H. specialize (H "echo _MONITOR_NAME" "" eq_refl).
  vm_compute in H. discriminate H.
Qed.

(** C8, amended. Every command handed to the shell is the declared command
    in which each occurrence of [_MONITOR_NAME_] that the scan of
    [str.replace] meets from the left (each one that does not overlap an
    occurrence replaced before it) is replaced by the name of the
    definition, the name put in being left as it is: the commands run are
    the declared ones under [with_name], in order and up to the first that
    fails, the first of them always; and a declared command is pieces
    joined by the token, cut at every occurrence the scan meets, which
    [with_name] turns into the same pieces joined by the name. *)
Theorem placeholder_is_replaced
    (sh : list io → string → Z) (defn : gmap string value) (key n : string)
    (l : list string) (st : list io) :
  defn !! "__name" = Some (VStr n) →
  hook_list defn key = Some l →
  (∃ k rc,
     _run_commands sh defn key st
     = (Ok rc, st ++ Call defn key :: map Exec (take k (map (with_name n) l)))
     ∧ stops_at_first_failure sh (st ++ [Call defn key])
                              (map (with_name n) l) k rc
     ∧ (l ≠ [] → 0 < k))
  ∧ ∀ command, ∃ pieces last,
      command = Str.join MONITOR_NAME pieces last
      ∧ Forall (λ p, Str.free_before MONITOR_NAME p = true) pieces
      ∧ Str.occurs MONITOR_NAME last = false
      ∧ with_name n command = Str.join n pieces last.
Proof.
  intros Hn Hl. split.
  - destruct (run_commands_named sh defn key n l st Hn Hl)
      as (k & rc & Hrun & Hstop).
    exists k, rc. unfold run_block in Hrun.
    rewrite (shell_commands_named _ _ _ _ Hn Hl) in Hrun, Hstop.
    split; [done|]. split; [done|].
    intros Hne. destruct Hstop as [_ [(-> & _ & _)|([Hk _] & _)]]; [|done].
    rewrite length_map. destruct l; [done|simpl; lia].
  - intros command.
    destruct (join_exists MONITOR_NAME command) as (pieces & last & -> & Hp & Hlast);
      [done|].
    exists pieces, last. split; [done|]. split; [done|]. split; [done|].
    by apply replace_join.
Qed.

Lemma placeholder_is_replaced_witness :
  (∃ k rc,
     _run_commands Sample.shell
       (<["skipped" := VStr "echo _MONITOR_NAME_"]> Sample.build_defn)
       "skipped" []
     = (Ok rc, [] ++ Call (<["skipped" := VStr "echo _MONITOR_NAME_"]> Sample.build_defn)
                        "skipped"
                  :: map Exec (take k (map (with_name "build")
                                           ["echo _MONITOR_NAME_"])))
     ∧ stops_at_first_failure Sample.shell
         ([] ++ [Call (<["skipped" := VStr "echo _MONITOR_NAME_"]> Sample.build_defn)
                   "skipped"])
         (map (with_name "build") ["echo _MONITOR_NAME_"]) k rc
     ∧ (["echo _MONITOR_NAME_"] ≠ [] → 0 < k))
  ∧ ∀ command, ∃ pieces last,
      command = Str.join MONITOR_NAME pieces last
      ∧ Forall (λ p, Str.free_before MONITOR_NAME p = true) pieces
      ∧ Str.occurs MONITOR_NAME last = false
      ∧ with_name "build" command = Str.join "build" pieces last.
Proof.
  apply (placeholder_is_replaced Sample.shell
           (<["skipped" := VStr "echo _MONITOR_NAME_"]> Sample.build_defn)
           "skipped" "build" ["echo _MONITOR_NAME_"] []); reflexivity.
Defined.

(** Where the token overlaps itself the scan leaves a part of it, and the
    command run can even hold the token again. *)
Example overlap_leaves_token :
  with_name "build" "echo _MONITOR_NAME_MONITOR_NAME_" = "echo buildMONITOR_NAME_"
  ∧ with_name "_" "echo _MONITOR_NAME_MONITOR_NAME_" = "echo _MONITOR_NAME_".
Proof. by vm_compute. Qed.

(** The specification's example. *)
Example echo_build :
  with_name "build" "echo _MONITOR_NAME_" = "echo build"
  ∧ execs (_run_commands Sample.shell
             (<["skipped" := VStr "echo _MONITOR_NAME_"]> Sample.build_defn)
             "skipped" []).2
    = ["echo build"].
Proof. by vm_compute. Qed.

(** * Further properties of the code *)

(** ** The collector *)

Lemma dispatch_handle_event self event :
  dispatch self event = _handle_event self event.
Proof. unfold dispatch. by destruct (kind event). Qed.

Lemma has_change_elem self : has_change self = true ↔ ∃ p, p ∈ _files self.
Proof.
  unfold has_change. rewrite bool_decide_eq_true. split.
  - intros Hsize. apply set_choose_L. intros Hempty.
    rewrite Hempty, size_empty in Hsize. lia.
  - intros [p Hp]. destruct (size (_files self)) eqn:Hsz; [|lia].
    apply size_empty_inv in Hsz. apply leibniz_equiv in Hsz.
    rewrite Hsz in Hp. by apply elem_of_empty in Hp.
Qed.

Lemma for_patterns_fields pats event self :
  _path (for_patterns pats event self) = _path self
  ∧ monitor_defn (for_patterns pats event self) = monitor_defn self
  ∧ _monitor (for_patterns pats event self) = _monitor self.
Proof.
  induction pats as [|r pats IH]; simpl; [done|].
  by destruct (Re.re_match r (src_path event)).
Qed.

Lemma handle_event_files self event q :
  q ∈ _files (_handle_event self event)
  ↔ q ∈ _files self
    ∨ (q = src_path event
       ∧ match patterns (_monitor self) with
         | Some pats => ∃ r, r ∈ pats ∧ Re.re_match r (src_path event) = true
         | None => src_path event ≠ ""
         end).
Proof.
  unfold _handle_event. destruct (patterns (_monitor self)) as [pats|].
  - apply for_patterns_files.
  - case_bool_decide as Hne.
    + rewrite add_file_files. split.
      * intros [?| ->]; [by left|by right].
      * intros [?|[-> _]]; [by left|by right].
    + split; [by left|]. intros [?|[_ ?]]; done.
Qed.

Lemma handle_event_fields self event :
  _path (_handle_event self event) = _path self
  ∧ monitor_defn (_handle_event self event) = monitor_defn self
  ∧ _monitor (_handle_event self event) = _monitor self.
Proof.
  unfold _handle_event. destruct (patterns (_monitor self)) as [pats|].
  - apply for_patterns_fields.
  - by case_bool_decide.
Qed.

(** X1. An event changes nothing of a handler but the set of recorded
    paths, which can only grow: a handler that has a change keeps it. *)
Theorem event_only_adds
    (self : MonitorAnyFileChange) (event : ChangeEvent) :
  _path (dispatch self event) = _path self
  ∧ monitor_defn (dispatch self event) = monitor_defn self
  ∧ _monitor (dispatch self event) = _monitor self
  ∧ _files self ⊆ _files (dispatch self event)
  ∧ (has_change self = true → has_change (dispatch self event) = true).
Proof.
  rewrite dispatch_handle_event.
  destruct (handle_event_fields self event) as (Hp & Hd & Hm).
  assert (_files self ⊆ _files (_handle_event self event)) as Hsub.
  { intros q Hq. apply handle_event_files. by left. }
  repeat split; try done.
  rewrite !has_change_elem. intros [p Hp']. exists p. by apply Hsub.
Qed.

Lemma event_only_adds_witness :
  let h := dispatch (new_handler "docs" Sample.docs_defn Sample.docs_search)
             {| src_path := "docs/index.md"; kind := modified |} in
  let e := {| src_path := "docs/old.txt"; kind := deleted |} in
  _path (dispatch h e) = _path h
  ∧ monitor_defn (dispatch h e) = monitor_defn h
  ∧ _monitor (dispatch h e) = _monitor h
  ∧ _files h ⊆ _files (dispatch h e)
  ∧ (has_change h = true → has_change (dispatch h e) = true).
Proof. intros h e. apply (event_only_adds h e). Defined.

(** X2. Recording is idempotent: the same event delivered twice leaves the
    handler as it is after the first delivery. *)
Theorem event_twice_is_once
    (self : MonitorAnyFileChange) (event : ChangeEvent) :
  dispatch (dispatch self event) event = dispatch self event.
Proof.
  rewrite !dispatch_handle_event.
  destruct (handle_event_fields self event) as (Hp & Hd & Hm).
  destruct (handle_event_fields (_handle_event self event) event) as (Hp' & Hd' & Hm').
  assert (_files (_handle_event (_handle_event self event) event)
          = _files (_handle_event self event)) as Hf.
  { apply set_eq. intros q. rewrite (handle_event_files (_handle_event self event)).
    rewrite Hm. rewrite (handle_event_files self). tauto. }
  destruct (_handle_event (_handle_event self event) event) as [p2 d2 m2 f2].
  destruct (_handle_event self event) as [p1 d1 m1 f1].
  simpl in *. congruence.
Qed.

(** X3. A new handler has no change, and after an event a handler has a
    change exactly when it had one or the search accepts the path of the
    event. *)
Theorem has_change_iff_accepted
    (self : MonitorAnyFileChange) (event : ChangeEvent)
    (path : string) (defn : gmap string value) (monitor : search_defn) :
  has_change (new_handler path defn monitor) = false
  ∧ (has_change (dispatch self event) = true
     ↔ has_change self = true ∨ accepted (_monitor self) (src_path event)).
Proof.
  split; [done|].
  rewrite dispatch_handle_event, !has_change_elem. split.
  - intros [q Hq]. apply handle_event_files in Hq as [?|[-> Hacc]]; [left; eauto|].
    right. unfold accepted. destruct (patterns (_monitor self)); [|done].
    destruct Hacc as (r & Hin & [rest Hrest]%re_match_Matches). eauto.
  - intros [[q Hq]|Hacc].
    + exists q. apply handle_event_files. by left.
    + exists (src_path event). apply handle_event_files. right. split; [done|].
      unfold accepted in Hacc. destruct (patterns (_monitor self)); [|done].
      destruct Hacc as (r & rest & Hin & Hrest). exists r. split; [done|].
      apply re_match_Matches. eauto.
Qed.

Lemma has_change_iff_accepted_witness :
  has_change (new_handler "docs" Sample.docs_defn Sample.docs_search) = false
  ∧ (has_change (dispatch (new_handler "docs" Sample.docs_defn Sample.docs_search)
                   {| src_path := "docs/index.md"; kind := modified |}) = true
     ↔ has_change (new_handler "docs" Sample.docs_defn Sample.docs_search) = true
       ∨ accepted (_monitor (new_handler "docs" Sample.docs_defn Sample.docs_search))
           (src_path {| src_path := "docs/index.md"; kind := modified |})).
Proof.
  apply (has_change_iff_accepted
           (new_handler "docs" Sample.docs_defn Sample.docs_search)
           {| src_path := "docs/index.md"; kind := modified |}
           "docs" Sample.docs_defn Sample.docs_search).
Defined.

(** X4. What a handler records does not depend on the order of its
    patterns, and with an empty list of patterns it records nothing. *)
Theorem patterns_order_is_irrelevant
    (pats pats' : list Re.regex) (event : ChangeEvent)
    (self : MonitorAnyFileChange) :
  pats ≡ₚ pats' →
  for_patterns pats event self = for_patterns pats' event self
  ∧ for_patterns [] event self = self.
Proof.
  intros Hperm. split; [|done].
  assert (∀ l, for_patterns l event self
               = if existsb (λ r, Re.re_match r (src_path event)) l
                 then add_file (src_path event) self else self) as Hex.
  { induction l as [|r l IH]; simpl; [done|].
    by destruct (Re.re_match r (src_path event)). }
  rewrite !Hex.
  assert (existsb (λ r, Re.re_match r (src_path event)) pats
          = existsb (λ r, Re.re_match r (src_path event)) pats') as ->; [|done].
  apply eq_true_iff_eq. rewrite !existsb_exists.
  split; intros (r & Hin & Hr); exists r; split; try done;
    apply list_elem_of_In; apply list_elem_of_In in Hin.
  - by rewrite <- Hperm.
  - by rewrite Hperm.
Qed.

Lemma patterns_order_is_irrelevant_witness :
  for_patterns [Sample.md_suffix; Sample.md_pattern]
    {| src_path := "docs/index.md"; kind := modified |}
    (new_handler "docs" Sample.docs_defn Sample.docs_search)
  = for_patterns [Sample.md_pattern; Sample.md_suffix]
      {| src_path := "docs/index.md"; kind := modified |}
      (new_handler "docs" Sample.docs_defn Sample.docs_search)
  ∧ for_patterns [] {| src_path := "docs/index.md"; kind := modified |}
      (new_handler "docs" Sample.docs_defn Sample.docs_search)
    = new_handler "docs" Sample.docs_defn Sample.docs_search.
Proof.
  apply (patterns_order_is_irrelevant [Sample.md_suffix; Sample.md_pattern]
           [Sample.md_pattern; Sample.md_suffix]).
  apply Permutation_swap.
Defined.

(** ** The commands of a definition *)

Section MoreCommands.

Variable sh : list io → string → Z.

(** X5. Running a list of commands is running its first part and, when
    that returned 0, the rest from where the first part left the world: a
    failure in the first part is the result and nothing of the rest
    runs. *)
Theorem commands_run_in_sequence
    (defn : gmap string value) (l1 l2 : list string) (st : list io) :
  for_commands sh defn (l1 ++ l2) st
  = (rc ← for_commands sh defn l1;
     if bool_decide (rc ≠ 0%Z) then mret rc else for_commands sh defn l2) st.
Proof.
  revert st. induction l1 as [|c l1 IH]; intros st; [done|].
  simpl. destruct (defn !! "__name") as [[n|?|?|?]|]; try done.
  unfold mbind, M_bind, subprocess_run. simpl.
  case_bool_decide as Hrc.
  - simpl. by rewrite bool_decide_eq_true_2.
  - rewrite IH. done.
Qed.

(** X6. A command in which the placeholder does not occur reaches the
    shell as it is declared, whatever the name of the definition. *)
Theorem commands_without_placeholder_run_verbatim
    (defn : gmap string value) (key n : string) (l : list string)
    (st : list io) :
  defn !! "__name" = Some (VStr n) →
  hook_list defn key = Some l →
  Forall (λ c, Str.occurs MONITOR_NAME c = false) l →
  ∃ k rc,
    _run_commands sh defn key st
    = (Ok rc, st ++ Call defn key :: map Exec (take k l))
    ∧ stops_at_first_failure sh (st ++ [Call defn key]) l k rc.
Proof.
  intros Hn Hl Hfree.
  destruct (run_commands_named sh defn key n l st Hn Hl)
    as (k & rc & Hrun & Hstop).
  assert (shell_commands defn key = l) as Hsame.
  { rewrite (shell_commands_named _ _ _ _ Hn Hl).
    clear Hrun Hstop Hl. induction Hfree as [|c l Hc _ IH]; [done|].
    simpl. rewrite IH. f_equal. by apply replace_absent. }
  exists k, rc. unfold run_block in Hrun. by rewrite Hsame in Hrun, Hstop.
Qed.

End MoreCommands.

Lemma commands_without_placeholder_run_verbatim_witness :
  ∃ k rc,
    _run_commands Sample.shell Sample.build_defn "commands" []
    = (Ok rc, [] ++ Call Sample.build_defn "commands"
                 :: map Exec (take k ["true"; "false"; "true"]))
    ∧ stops_at_first_failure Sample.shell
        ([] ++ [Call Sample.build_defn "commands"])
        ["true"; "false"; "true"] k rc.
Proof.
  apply (commands_without_placeholder_run_verbatim Sample.shell
           Sample.build_defn "commands" "build" ["true"; "false"; "true"] []);
    [reflexivity|reflexivity|].
  repeat constructor.
Defined.

(** ** The loop over the handlers *)

Lemma pipeline_entries_app tr1 tr2 :
  pipeline_entries (tr1 ++ tr2) = pipeline_entries tr1 ++ pipeline_entries tr2.
Proof. unfold pipeline_entries. by rewrite calls_app, omap_app. Qed.

Lemma pipeline_entries_block defn hook k :
  pipeline_entries (run_block defn hook k)
  = if bool_decide (hook = "skipped" ∨ hook = "commands")
    then from_option (λ key, [key]) [] (key_of defn) else [].
Proof.
  unfold pipeline_entries. rewrite calls_run_block. simpl.
  case_bool_decide; [|done]. by destruct (key_of defn).
Qed.

Lemma changed_keys_cons h hs :
  changed_keys (h :: hs)
  = if has_change h
    then from_option (λ key, [key]) [] (key_of (monitor_defn h)) ++ changed_keys hs
    else changed_keys hs.
Proof.
  unfold changed_keys. rewrite filter_cons.
  destruct (has_change h); simpl; [|done].
  by destruct (key_of (monitor_defn h)).
Qed.

Section MoreLoop.

Variable sh : list io → string → Z.

(** A pipeline that returns was entered once, for its definition. *)
Lemma run_pipeline_entries skip k defn st st' :
  key_of defn = Some k →
  run_pipeline sh skip k defn st = (Ok tt, st') →
  ∃ tr, st' = st ++ tr ∧ pipeline_entries tr = [k].
Proof.
  intros Hk Hrun. destruct skip.
  - destruct (run_pipeline_skip sh k defn st) as (r & n & Hr).
    rewrite Hr in Hrun. injection Hrun as _ <-.
    exists (run_block defn "skipped" n). split; [done|].
    rewrite pipeline_entries_block, Hk. by rewrite bool_decide_eq_true_2 by auto.
  - destruct (run_pipeline_run sh k defn st) as (r & n & tl & Hr & Htl).
    rewrite Hr in Hrun. injection Hrun as _ <-.
    exists ([Print ("Executing " +:+ k)] ++ run_block defn "commands" n ++ tl).
    split; [done|].
    rewrite !pipeline_entries_app, pipeline_entries_block, Hk.
    rewrite bool_decide_eq_true_2 by auto. simpl.
    destruct Htl as [->|(hook & m & Hhook & [->| ->])]; [done|..];
      rewrite ?pipeline_entries_app, pipeline_entries_block;
      rewrite bool_decide_eq_false_2; try done;
      intros [?|?]; destruct Hhook; congruence.
Qed.

(** The loop, when it returns: the pipelines entered are those of the keys
    of the changed handlers that were not yet triggered, in the order of
    their first handler, and these keys are added to the triggered ones. *)
Lemma for_handlers_entries skip hs :
  ∀ T st T' st',
    for_handlers sh skip hs T st = (Ok T', st') →
    ∃ tr, st' = st ++ tr
      ∧ pipeline_entries tr
        = filter (λ k, k ∉ T) (first_occurrences (changed_keys hs))
      ∧ (∀ k, k ∈ T' ↔ k ∈ T ∨ k ∈ changed_keys hs)
      ∧ length (changed_keys hs) = length (filter (λ h, has_change h = true) hs).
Proof.
  induction hs as [|h hs IH]; intros T st T' st'; simpl.
  { intros [= <- <-]. exists []. rewrite app_nil_r. split; [done|].
    split; [done|]. split; [|done]. intros k. split; [by left|].
    intros [?|Hin]; [done|]. by apply elem_of_nil in Hin. }
  rewrite changed_keys_cons, filter_cons.
  destruct (has_change h) eqn:Hch; simpl; [|apply IH].
  destruct (monitor_defn h !! "__key") as [[k|?|?|?]|] eqn:Hkey; try done.
  rewrite (key_of_lookup _ _ Hkey). simpl.
  case_bool_decide as HkT.
  - intros Hrun. destruct (IH _ _ _ _ Hrun) as (tr & -> & Hentries & HT' & Hlen).
    exists tr. split; [done|]. split; [|split].
    + rewrite filter_cons_False by (intros Hn; by apply Hn).
      rewrite list_filter_filter, Hentries. apply list_filter_iff.
      intros k'. split; [|tauto]. intros Hk'. split; [done|]. by intros ->.
    + intros k'. rewrite (HT' k'), elem_of_cons. split; [tauto|].
      intros [?|[->|?]]; auto.
    + by rewrite Hlen.
  - unfold mbind, M_bind.
    destruct (run_pipeline sh skip k (monitor_defn h) st) as [[[]|e] st1] eqn:Hp;
      [|done].
    intros Hrun.
    destruct (run_pipeline_entries _ _ _ _ _ (key_of_lookup _ _ Hkey) Hp)
      as (trp & -> & Hone).
    destruct (IH _ _ _ _ Hrun) as (tr & -> & Hentries & HT' & Hlen).
    exists (trp ++ tr). split; [by rewrite app_assoc|]. split; [|split].
    + rewrite pipeline_entries_app, Hone, Hentries. simpl.
      rewrite filter_cons_True by done. f_equal.
      rewrite list_filter_filter. apply list_filter_iff.
      intros k'. rewrite elem_of_union, elem_of_singleton. tauto.
    + intros k'. rewrite (HT' k'), elem_of_union, elem_of_singleton, elem_of_cons.
      tauto.
    + by rewrite Hlen.
Qed.

(** X7. Handlers that recorded nothing play no part in the loop: it runs
    as on the changed handlers alone, and when no handler changed it runs
    nothing and returns. *)
Theorem unchanged_handlers_are_ignored
    (skip : bool) (hs : list MonitorAnyFileChange) (T : gset string)
    (st : list io) :
  for_handlers sh skip hs T st
  = for_handlers sh skip (filter (λ h, has_change h = true) hs) T st
  ∧ (Forall (λ h, has_change h = false) hs →
     for_handlers sh skip hs T st = (Ok T, st)).
Proof.
  split.
  - revert T st. induction hs as [|h hs IH]; intros T st; [done|].
    rewrite filter_cons. simpl. destruct (has_change h) eqn:Hch; simpl; [|apply IH].
    rewrite Hch. destruct (monitor_defn h !! "__key") as [[k|?|?|?]|]; try done.
    case_bool_decide; [apply IH|]. unfold mbind, M_bind.
    destruct (run_pipeline sh skip k (monitor_defn h) st) as [[[]|e] st1]; [|done].
    apply IH.
  - intros Hall. revert T st. induction Hall as [|h hs Hh _ IH]; intros T st; [done|].
    simpl. rewrite Hh. apply IH.
Qed.

(** X8. When the loop returns, the pipelines were entered in the order in
    which the handlers first showed each key, once per key: the keys
    entered are the first occurrences of the keys of the changed handlers,
    every changed handler has a key, and the keys triggered are exactly
    these. *)
Theorem pipelines_run_in_discovery_order
    (path_exists : string → bool) (self : FilesWatcher)
    (st st' : list io) (T : gset string) :
  run_triggered sh path_exists self st = (Ok T, st') →
  ∃ tr, st' = st ++ tr
    ∧ pipeline_entries tr
      = first_occurrences (changed_keys (event_handlers self))
    ∧ (∀ k, k ∈ T ↔ k ∈ changed_keys (event_handlers self))
    ∧ length (changed_keys (event_handlers self))
      = length (filter (λ h, has_change h = true) (event_handlers self)).
Proof.
  intros Hrun. unfold run_triggered in Hrun.
  destruct (for_handlers_entries _ _ _ _ _ _ Hrun) as (tr & -> & Hentries & HT & Hlen).
  exists tr. split; [done|]. split; [|split; [|done]].
  - rewrite Hentries.
    generalize (first_occurrences (changed_keys (event_handlers self))).
    induction l as [|k l IH]; [done|].
    rewrite filter_cons_True by apply not_elem_of_empty. by rewrite IH.
  - intros k. rewrite (HT k), elem_of_empty. tauto.
Qed.

End MoreLoop.

Lemma unchanged_handlers_are_ignored_witness :
  let hs := [new_handler "docs" Sample.docs_defn Sample.docs_search] in
  for_handlers Sample.shell false hs ∅ []
  = for_handlers Sample.shell false (filter (λ h, has_change h = true) hs) ∅ []
  ∧ (Forall (λ h, has_change h = false) hs →
     for_handlers Sample.shell false hs ∅ [] = (Ok ∅, [])).
Proof.
  intros hs. apply (unchanged_handlers_are_ignored Sample.shell false hs ∅ []).
Defined.

Lemma pipelines_run_in_discovery_order_witness :
  ∃ T st',
    run_triggered Sample.shell Sample.file_exists (Sample.watching None) []
    = (Ok T, st')
    ∧ ∃ tr, st' = [] ++ tr
        ∧ pipeline_entries tr
          = first_occurrences (changed_keys (event_handlers (Sample.watching None)))
        ∧ (∀ k, k ∈ T ↔ k ∈ changed_keys (event_handlers (Sample.watching None)))
        ∧ length (changed_keys (event_handlers (Sample.watching None)))
          = length (filter (λ h, has_change h = true)
                      (event_handlers (Sample.watching None))).
Proof.
  destruct (run_triggered Sample.shell Sample.file_exists (Sample.watching None) [])
    as [[T|e] st'] eqn:Hrun.
  - exists T, st'. split; [reflexivity|].
    apply (pipelines_run_in_discovery_order Sample.shell Sample.file_exists
             (Sample.watching None) [] st' T Hrun).
  - apply (f_equal (λ r, match r.1 with Ok _ => true | Raise _ => false end)) in Hrun.
    vm_compute in Hrun. discriminate Hrun.
Defined.

(** In the sample cycle [build] changed under [src] and under [lib], then
    [docs]: two pipelines, [build] first. *)
Example sample_discovery_order :
  changed_keys (event_handlers (Sample.watching None))
  = ["watch.yaml:build"; "watch.yaml:build"; "watch.yaml:docs"]
  ∧ first_occurrences (changed_keys (event_handlers (Sample.watching None)))
    = ["watch.yaml:build"; "watch.yaml:docs"].
Proof. by vm_compute. Qed.

(** ** The set-up *)

Section MoreSetup.

Variable iglob : string → list string.

Lemma for_glob_adds defn search g acc :
  event_handlers (for_glob iglob defn search acc g).1
  = event_handlers acc.1 ++ map (λ p, new_handler p defn search) (iglob g)
  ∧ observer (for_glob iglob defn search acc g).1 = observer acc.1 ++ iglob g.
Proof.
  unfold for_glob. revert acc.
  induction (iglob g) as [|p ps IH]; intros acc; simpl.
  - by rewrite !app_nil_r.
  - destruct (IH (_add_monitor p defn search acc.1, true)) as [-> ->].
    simpl. by rewrite <- !app_assoc.
Qed.

Lemma for_globs_adds defn search globs self :
  event_handlers (for_globs iglob defn search globs self).1
  = event_handlers self
    ++ map (λ p, new_handler p defn search) (flat_map iglob globs)
  ∧ observer (for_globs iglob defn search globs self).1
    = observer self ++ flat_map iglob globs.
Proof.
  unfold for_globs.
  change (event_handlers self) with (event_handlers (self, false).1).
  change (observer self) with (observer (self, false).1).
  generalize (self, false).
  induction globs as [|g globs IH]; intros acc; simpl.
  - by rewrite !app_nil_r.
  - destruct (IH (for_glob iglob defn search acc g)) as [-> ->].
    destruct (for_glob_adds defn search g acc) as [-> ->].
    by rewrite map_app, <- !app_assoc.
Qed.

(** X9. A search adds one handler for each path its globs expand to, in
    the order of the globs and of their expansion, each new, scheduled on
    its path, and bound to the definition and to the search; nothing else
    is added or removed. *)
Theorem search_adds_one_handler_per_path
    (defn : gmap string value) (search : search_defn) (ps : strs)
    (self self' : FilesWatcher) (st st' : list io) :
  paths search = Some ps →
  for_search iglob defn search self st = (Ok self', st') →
  event_handlers self'
  = event_handlers self
    ++ map (λ p, new_handler p defn search) (flat_map iglob (as_list ps))
  ∧ observer self' = observer self ++ flat_map iglob (as_list ps)
  ∧ length (event_handlers self')
    = length (event_handlers self) + length (flat_map iglob (as_list ps)).
Proof.
  intros Hps. unfold for_search. rewrite Hps.
  destruct (for_globs_adds defn search (as_list ps) self) as [Hh Ho].
  destruct (for_globs iglob defn search (as_list ps) self) as [self1 found].
  simpl in Hh, Ho.
  assert (∀ st1, (mret self1 : M FilesWatcher) st1 = (Ok self', st') →
    event_handlers self'
    = event_handlers self
      ++ map (λ p, new_handler p defn search) (flat_map iglob (as_list ps))
    ∧ observer self' = observer self ++ flat_map iglob (as_list ps)
    ∧ length (event_handlers self')
      = length (event_handlers self) + length (flat_map iglob (as_list ps)))
    as Hret.
  { intros st1 [= <- _]. split; [done|]. split; [done|].
    by rewrite Hh, length_app, length_map. }
  destruct (last _); [|apply Hret]. destruct found; simpl; [apply Hret|].
  unfold print. rewrite emit_bind.
  destruct (exit_on_error _); [done|apply Hret].
Qed.

End MoreSetup.

Lemma search_adds_one_handler_per_path_witness :
  let search := {| name := None; paths := Some (Strs ["src"; "generated"; "lib"]);
                   patterns := None |} in
  let self := Sample.watcher (Sample.command_line None) in
  ∃ self' st',
    for_search Sample.glob Sample.build_defn search self [] = (Ok self', st')
    ∧ event_handlers self'
      = event_handlers self
        ++ map (λ p, new_handler p Sample.build_defn search)
               (flat_map Sample.glob (as_list (Strs ["src"; "generated"; "lib"])))
    ∧ observer self'
      = observer self
        ++ flat_map Sample.glob (as_list (Strs ["src"; "generated"; "lib"]))
    ∧ length (event_handlers self')
      = length (event_handlers self)
        + length (flat_map Sample.glob (as_list (Strs ["src"; "generated"; "lib"]))).
Proof.
  intros search self.
  destruct (for_search Sample.glob Sample.build_defn search self [])
    as [[self'|e] st'] eqn:Hrun.
  - exists self', st'. split; [reflexivity|].
    apply (search_adds_one_handler_per_path Sample.glob Sample.build_defn search
             (Strs ["src"; "generated"; "lib"]) self self' [] st' eq_refl Hrun).
  - apply (f_equal (λ r, match r.1 with Ok _ => true | Raise _ => false end)) in Hrun.
    vm_compute in Hrun. discriminate Hrun.
Defined.

(** *** What the set-up establishes *)

Section SetupInvariant.

Variable iglob : string → list string.
Variable load_yaml : string → option (list (string * gmap string value)).
Variable observer_start : list string → bool.

Lemma new_handlers_paths defn search (l : list string) :
  map _path (map (λ p, new_handler p defn search) l) = l.
Proof. induction l as [|p l IH]; simpl; [done|by rewrite IH]. Qed.

Lemma new_handlers_fresh defn search (l : list string) :
  Forall (λ h, _files h = ∅) (map (λ p, new_handler p defn search) l).
Proof. induction l; constructor; done. Qed.

Lemma new_handlers_named defn search (l : list string) :
  (∃ n, defn !! "__name" = Some (VStr n)) →
  (∃ k, defn !! "__key" = Some (VStr k)) →
  Forall named_handler (map (λ p, new_handler p defn search) l).
Proof. intros Hn Hk. induction l; constructor; [by split|done]. Qed.

Lemma for_globs_good defn search globs self :
  (∃ n, defn !! "__name" = Some (VStr n)) →
  (∃ k, defn !! "__key" = Some (VStr k)) →
  set_up self → set_up (for_globs iglob defn search globs self).1.
Proof.
  intros Hn Hk [[Hobs Hfresh] Hnamed].
  destruct (for_globs_adds iglob defn search globs self) as [Hh Ho].
  unfold set_up, freshly_scheduled. rewrite Hh, Ho, map_app, Hobs.
  rewrite new_handlers_paths. split; [split; [done|]|].
  - apply Forall_app. split; [done|apply new_handlers_fresh].
  - apply Forall_app. split; [done|by apply new_handlers_named].
Qed.

Lemma for_search_good defn search self st self' st' :
  (∃ n, defn !! "__name" = Some (VStr n)) →
  (∃ k, defn !! "__key" = Some (VStr k)) →
  set_up self →
  for_search iglob defn search self st = (Ok self', st') → set_up self'.
Proof.
  intros Hn Hk Hgood. unfold for_search. destruct (paths search) as [ps|]; [|done].
  pose proof (for_globs_good defn search (as_list ps) self Hn Hk Hgood) as Hg.
  destruct (for_globs _ _ _ _ _) as [self1 found]. simpl in Hg.
  assert (∀ st1, (mret self1 : M FilesWatcher) st1 = (Ok self', st') → set_up self')
    as Hret by (by intros st1 [= <- _]).
  destruct (last _); [|apply Hret]. destruct found; simpl; [apply Hret|].
  unfold print. rewrite emit_bind.
  destruct (exit_on_error _); [done|apply Hret].
Qed.

Lemma for_searches_good defn searches :
  (∃ n, defn !! "__name" = Some (VStr n)) →
  (∃ k, defn !! "__key" = Some (VStr k)) →
  ∀ self st self' st',
    set_up self →
    for_searches iglob defn searches self st = (Ok self', st') → set_up self'.
Proof.
  intros Hn Hk. induction searches as [|s searches IH];
    intros self st self' st' Hgood; simpl.
  { by intros [= <- _]. }
  unfold mbind, M_bind.
  destruct (for_search iglob defn s self st) as [[self1|e] st1] eqn:Hs; [|done].
  apply IH. by eapply for_search_good.
Qed.

Lemma set_defaults_good d self : set_up self → set_up (set_defaults d self).
Proof. done. Qed.

Lemma for_defns_good source defns :
  ∀ self st self' st',
    set_up self →
    for_defns iglob source defns self st = (Ok self', st') → set_up self'.
Proof.
  induction defns as [|[n d] defns IH]; intros self st self' st' Hgood; simpl.
  { by intros [= <- _]. }
  case_bool_decide; [by apply IH, set_defaults_good|].
  unfold mbind, M_bind.
  destruct (get_searches _ st) as [[searches|e] st1]; [|done].
  destruct (for_searches iglob _ searches self st1) as [[self1|e] st2] eqn:Hs;
    [|done].
  apply IH.
  destruct (merge_defn_named (_monitor_defns_defaults self) source n d) as [Hn Hk].
  eapply for_searches_good; [by eexists|by eexists|done|done].
Qed.

Lemma for_yaml_files_good files :
  ∀ self st self' st',
    set_up self →
    for_yaml_files iglob load_yaml files self st = (Ok self', st') → set_up self'.
Proof.
  induction files as [|f files IH]; intros self st self' st' Hgood; simpl.
  { by intros [= <- _]. }
  destruct (load_yaml f) as [defns|]; [|done].
  unfold mbind, M_bind, _start_monitors.
  destruct (for_defns iglob f defns (set_defaults ∅ self) st)
    as [[self1|e] st1] eqn:Hd; [|done].
  apply IH. eapply for_defns_good; [|done]. by apply set_defaults_good.
Qed.

Lemma setup_observers_good self st self' st' :
  _setup_observers iglob load_yaml observer_start self st = (Ok self', st') →
  set_up self'.
Proof.
  unfold _setup_observers, print. rewrite emit_bind. unfold mbind, M_bind.
  destruct (for_yaml_files iglob load_yaml _ _ _) as [[self1|e] st1] eqn:Hf;
    [|done].
  assert (set_up self1) as Hgood.
  { eapply for_yaml_files_good; [|done]. split; [split|]; by constructor. }
  destruct (observer_start _); [by intros [= <- _]|].
  destruct (exit_on_error _); [done|by intros [= <- _]].
Qed.

(** X10. A set-up that returns leaves the handlers it built and no other:
    each is scheduled on its own path, in the same order, has recorded
    nothing, and its definition has the name and the key the pipeline
    reads; whatever handlers the watcher held before are gone. *)
Theorem setup_leaves_fresh_handlers
    (self self' : FilesWatcher) (st st' : list io) :
  _setup_observers iglob load_yaml observer_start self st = (Ok self', st') →
  observer self' = map _path (event_handlers self')
  ∧ Forall (λ h, has_change h = false ∧ named_handler h) (event_handlers self')
  ∧ ∀ hs ws,
      _setup_observers iglob load_yaml observer_start (set_handlers hs ws self) st
      = _setup_observers iglob load_yaml observer_start self st.
Proof.
  intros Hrun. destruct (setup_observers_good _ _ _ _ Hrun) as [[Hobs Hfresh] Hnamed].
  split; [done|]. split; [|done].
  apply Forall_forall. intros h Hin. split.
  - rewrite Forall_forall in Hfresh. unfold has_change.
    rewrite (Hfresh h Hin), size_empty. by apply bool_decide_eq_false_2; lia.
  - rewrite Forall_forall in Hnamed. by apply Hnamed.
Qed.

End SetupInvariant.

Lemma setup_leaves_fresh_handlers_witness :
  let self := Sample.watching None in
  ∃ self' st',
    _setup_observers Sample.glob Sample.yaml Sample.observer_ok self []
    = (Ok self', st')
    ∧ observer self' = map _path (event_handlers self')
    ∧ Forall (λ h, has_change h = false ∧ named_handler h) (event_handlers self')
    ∧ ∀ hs ws,
        _setup_observers Sample.glob Sample.yaml Sample.observer_ok
          (set_handlers hs ws self) []
        = _setup_observers Sample.glob Sample.yaml Sample.observer_ok self [].
Proof.
  intros self.
  destruct (_setup_observers Sample.glob Sample.yaml Sample.observer_ok self [])
    as [[self'|e] st'] eqn:Hrun.
  - exists self', st'. split; [reflexivity|]. rewrite <- Hrun.
    apply (setup_leaves_fresh_handlers Sample.glob Sample.yaml Sample.observer_ok
             self self' [] st' Hrun).
  - apply (f_equal (λ r, match r.1 with Ok _ => true | Raise _ => false end)) in Hrun.
    vm_compute in Hrun. discriminate Hrun.
Defined.

(** *** What a cycle can raise *)

Lemma raises_only_ret {A} E (a : A) : raises_only E (mret a).
Proof. by intros st e st' [=]. Qed.

Lemma raises_only_raise {A} (E : exn → Prop) e : E e → raises_only E (@raise A e).
Proof. by intros He st e' st' [= <- _]. Qed.

Lemma raises_only_print E msg : raises_only E (print msg).
Proof. by intros st e st' [=]. Qed.

Lemma raises_only_bind {A B} E (m : M A) (f : A → M B) :
  raises_only E m →
  (∀ st a st', m st = (Ok a, st') → raises_only E (f a)) →
  raises_only E (m ≫= f).
Proof.
  intros Hm Hf st e st'. unfold mbind, M_bind.
  destruct (m st) as [[a|e1] st1] eqn:Hmst.
  - intros Hfa. by eapply Hf.
  - intros [= <- _]. by eapply Hm.
Qed.

Section Raises.

Variable sh : list io → string → Z.
Variable iglob : string → list string.
Variable path_exists : string → bool.
Variable load_yaml : string → option (list (string * gmap string value)).
Variable observer_start : list string → bool.

Lemma get_searches_raises strict defn :
  raises_only (cycle_raises strict) (get_searches defn).
Proof.
  unfold get_searches.
  destruct (defn !! "searches") as [[s|[|s l]|[|s l]|ks]|];
    try apply raises_only_ret; apply raises_only_raise;
    (split; [done|split; [done|by intros code [=]]]).
Qed.

Lemma for_search_raises defn search self :
  raises_only (cycle_raises (exit_on_error (args self)))
              (for_search iglob defn search self).
Proof.
  unfold for_search. destruct (paths search);
    [|apply raises_only_raise; split; [done|split; [done|by intros code [=]]]].
  destruct (for_globs _ _ _ _ _) as [self' found].
  destruct (last _); [|apply raises_only_ret].
  destruct found; simpl; [apply raises_only_ret|].
  apply raises_only_bind; [apply raises_only_print|]. intros _ _ _ _.
  destruct (exit_on_error (args self)) eqn:Hstrict; [|apply raises_only_ret].
  apply raises_only_raise. split; [done|split; [done|]].
  by intros code [= <-].
Qed.

Lemma for_searches_raises defn searches a :
  ∀ self, args self = a →
    raises_only (cycle_raises (exit_on_error a))
                (for_searches iglob defn searches self).
Proof.
  induction searches as [|s searches IH]; intros self Ha; simpl.
  - apply raises_only_ret.
  - apply raises_only_bind; [rewrite <- Ha; apply for_search_raises|].
    intros st self' st' Hs. apply IH. rewrite <- Ha.
    by eapply (for_search_args iglob defn s self self).
Qed.

Lemma for_defns_raises source defns a :
  ∀ self, args self = a →
    raises_only (cycle_raises (exit_on_error a))
                (for_defns iglob source defns self).
Proof.
  induction defns as [|[n d] defns IH]; intros self Ha; simpl.
  - apply raises_only_ret.
  - case_bool_decide; [by apply IH|].
    apply raises_only_bind; [apply get_searches_raises|]. intros _ searches _ _.
    apply raises_only_bind; [by apply for_searches_raises|].
    intros st self' st' Hs. apply IH. rewrite <- Ha.
    by eapply (for_searches_args iglob _ searches self self).
Qed.

Lemma for_yaml_files_raises files a :
  ∀ self, args self = a →
    raises_only (cycle_raises (exit_on_error a))
                (for_yaml_files iglob load_yaml files self).
Proof.
  induction files as [|f files IH]; intros self Ha; simpl.
  - apply raises_only_ret.
  - destruct (load_yaml f) as [defns|];
      [|apply raises_only_raise; split; [done|split; [done|by intros code [=]]]].
    apply raises_only_bind; [by apply for_defns_raises|].
    intros st self' st' Hs. apply IH. rewrite <- Ha.
    by eapply (for_defns_args iglob f defns self (set_defaults ∅ self)).
Qed.

Lemma setup_observers_raises self :
  raises_only (cycle_raises (exit_on_error (args self)))
              (_setup_observers iglob load_yaml observer_start self).
Proof.
  unfold _setup_observers.
  apply raises_only_bind; [apply raises_only_print|]. intros _ _ _ _.
  apply raises_only_bind; [by apply for_yaml_files_raises|].
  intros st self' st' Hs.
  assert (args self' = args self) as Ha.
  { by eapply (for_yaml_files_args iglob load_yaml _ self (set_handlers [] [] self)). }
  destruct (observer_start _); [apply raises_only_ret|].
  rewrite Ha. destruct (exit_on_error (args self)) eqn:Hstrict;
    [|apply raises_only_ret].
  apply raises_only_raise. split; [done|split; [done|]].
  by intros code [= <-].
Qed.

(** A call on a definition that has a name raises only on a hook that is a
    list of dictionaries, with [AttributeError]. *)
Lemma run_commands_raises strict defn key :
  (∃ n, defn !! "__name" = Some (VStr n)) →
  raises_only (cycle_raises strict) (_run_commands sh defn key).
Proof.
  intros [n Hn] st e st' Hrun.
  destruct (hook_list defn key) as [l|] eqn:Hl.
  - destruct (run_commands_named sh defn key n l st Hn Hl) as (k & rc & Hok & _).
    congruence.
  - unfold hook_list in Hl. unfold _run_commands in Hrun.
    rewrite emit_bind in Hrun.
    destruct (defn !! key) as [[c|cs|[|s ss]|ks]|]; try discriminate Hl.
    unfold raise in Hrun. injection Hrun as <- _.
    split; [done|split; [done|by intros code [=]]].
Qed.

Lemma run_pipeline_raises strict skip k defn :
  (∃ n, defn !! "__name" = Some (VStr n)) →
  raises_only (cycle_raises strict) (run_pipeline sh skip k defn).
Proof.
  intros Hn. unfold run_pipeline. destruct skip.
  - apply raises_only_bind; [by apply run_commands_raises|].
    intros; apply raises_only_ret.
  - apply raises_only_bind; [apply raises_only_print|]. intros _ _ _ _.
    apply raises_only_bind; [by apply run_commands_raises|]. intros _ rc _ _.
    apply raises_only_bind; [by apply run_commands_raises|].
    intros; apply raises_only_print.
Qed.

Lemma for_handlers_raises strict skip hs :
  Forall named_handler hs →
  ∀ T, raises_only (cycle_raises strict) (for_handlers sh skip hs T).
Proof.
  induction 1 as [|h hs [Hn [k Hk]] _ IH]; intros T; simpl.
  - apply raises_only_ret.
  - destruct (has_change h); [|apply IH]. rewrite Hk.
    case_bool_decide; [apply IH|].
    apply raises_only_bind; [by apply run_pipeline_raises|]. intros; apply IH.
Qed.

Lemma deliver_named deliveries :
  ∀ self, Forall named_handler (event_handlers self) →
          Forall named_handler (event_handlers (fold_left deliver deliveries self)).
Proof.
  induction deliveries as [|d ds IH]; intros self Hnamed; simpl; [done|].
  apply IH. simpl. apply Forall_alter; [done|].
  intros h _ Hh. unfold named_handler. rewrite dispatch_handle_event.
  destruct (handle_event_fields h d.2) as (_ & -> & _). done.
Qed.

(** X11. A cycle never fails for want of the name or the key of a
    definition, which the set-up gives to every definition it watches, and
    it never exits the program but with code 1 under [--exit_on_error]:
    without that option no cycle ends in an exit. *)
Theorem cycle_never_lacks_name_or_exits_lenient
    (deliveries : list (nat * ChangeEvent)) (self : FilesWatcher)
    (st st' : list io) (e : exn) :
  start sh iglob path_exists load_yaml observer_start deliveries self st
  = (Raise e, st') →
  e ≠ KeyError "__key" ∧ e ≠ KeyError "__name"
  ∧ (∀ code, e = SystemExit code →
             exit_on_error (args self) = true ∧ code = 1%Z)
  ∧ (exit_on_error (args self) = false → ∀ code, e ≠ SystemExit code).
Proof.
  intros Hrun.
  assert (cycle_raises (exit_on_error (args self)) e) as (Hk & Hn & Hexit).
  { revert Hrun. unfold start. apply raises_only_bind.
    - apply setup_observers_raises.
    - intros st0 self1 st1 Hsetup.
      apply raises_only_bind; [|intros; apply raises_only_ret].
      unfold run_triggered. apply for_handlers_raises, deliver_named.
      by destruct (setup_observers_good _ _ _ _ _ _ _ Hsetup) as [_ ?]. }
  split; [done|]. split; [done|]. split; [done|].
  intros Hlenient code He. destruct (Hexit code He) as [Hstrict _]. congruence.
Qed.

End Raises.

Lemma cycle_never_lacks_name_or_exits_lenient_witness :
  let self := Sample.watcher
                {| args_paths := ["watch.yaml"; "nowhere.yaml"]; repeat := false;
                   exit_on_error := false; skip_file := None |} in
  ∃ e st',
    start Sample.shell Sample.glob Sample.file_exists Sample.yaml
      Sample.observer_ok Sample.deliveries self [] = (Raise e, st')
    ∧ e ≠ KeyError "__key" ∧ e ≠ KeyError "__name"
    ∧ (∀ code, e = SystemExit code →
               exit_on_error (args self) = true ∧ code = 1%Z)
    ∧ (exit_on_error (args self) = false → ∀ code, e ≠ SystemExit code).
Proof.
  intros self.
  destruct (start Sample.shell Sample.glob Sample.file_exists Sample.yaml
              Sample.observer_ok Sample.deliveries self [])
    as [[self'|e] st'] eqn:Hrun.
  - apply (f_equal (λ r, match r.1 with Ok _ => true | Raise _ => false end)) in Hrun.
    vm_compute in Hrun. discriminate Hrun.
  - exists e, st'. split; [reflexivity|].
    apply (cycle_never_lacks_name_or_exits_lenient Sample.shell Sample.glob
             Sample.file_exists Sample.yaml Sample.observer_ok Sample.deliveries
             self [] st' e Hrun).
Defined.

(** *** A definition without [searches] *)

Section MissingSearches.

Variable iglob : string → list string.

Lemma defaults_after_cons d0 n' d' pre :
  defaults_after d0 ((n', d') :: pre)
  = defaults_after (if bool_decide (n' = "__defaults__") then d' else d0) pre.
Proof. done. Qed.

Lemma for_defns_missing_searches source pre n d post :
  n ≠ "__defaults__" →
  d !! "searches" = None →
  ∀ self st,
    defaults_after (_monitor_defns_defaults self) pre !! "searches" = None →
    ∃ e st', for_defns iglob source (pre ++ (n, d) :: post) self st
             = (Raise e, st').
Proof.
  intros Hn Hd. induction pre as [|[n' d'] pre IH]; intros self st Hdef; simpl.
  - rewrite bool_decide_eq_false_2 by done.
    assert (get_searches (merge_defn (_monitor_defns_defaults self) source n d) st
            = (Raise (KeyError "searches"), st)) as Hs.
    { unfold get_searches. rewrite merge_defn_lookup by done.
      simpl in Hdef. by rewrite Hd, Hdef. }
    rewrite (bind_raise _ _ _ _ _ Hs). eauto.
  - rewrite defaults_after_cons in Hdef.
    destruct (decide (n' = "__defaults__")) as [Hn'|Hn'].
    + rewrite bool_decide_eq_true_2 by done.
      rewrite bool_decide_eq_true_2 in Hdef by done. by apply IH.
    + rewrite bool_decide_eq_false_2 by done.
      rewrite bool_decide_eq_false_2 in Hdef by done.
      unfold mbind, M_bind.
      destruct (get_searches _ st) as [[searches|e] st1]; [|eauto].
      destruct (for_searches iglob _ searches self st1) as [[self1|e] st2] eqn:Hs;
        [|eauto].
      apply IH.
      destruct (for_searches_handlers iglob _ _ _ _ _ _ Hs) as [-> _]. done.
Qed.

(** X12. A definition that has no [searches] key, of its own or from the
    defaults in force, stops the set-up of its source with an exception, in
    the strict mode and in the lenient one alike: the source never
    returns, so no definition of it is watched, and all that happened is
    printing. *)
Theorem missing_searches_is_fatal
    (source : string) (pre post : list (string * gmap string value))
    (n : string) (d : gmap string value) (self : FilesWatcher)
    (st : list io) :
  n ≠ "__defaults__" →
  d !! "searches" = None →
  defaults_in_force pre !! "searches" = None →
  ∃ e ms,
    _start_monitors iglob source (pre ++ (n, d) :: post) self st
    = (Raise e, st ++ map Print ms).
Proof.
  intros Hn Hd Hdef.
  destruct (for_defns_missing_searches source pre n d post Hn Hd
              (set_defaults ∅ self) st Hdef) as (e & st' & Hrun).
  destruct (for_defns_prints iglob source (pre ++ (n, d) :: post)
              (set_defaults ∅ self) st) as (r & ms & Hprints).
  exists e, ms. unfold _start_monitors. rewrite Hrun in Hprints.
  by injection Hprints as _ ->.
Qed.

End MissingSearches.

Lemma missing_searches_is_fatal_witness :
  ∃ e ms,
    _start_monitors Sample.glob "watch.yaml"
      ([("build", Sample.build)]
         ++ ("notes", {[ "commands" := VStr "make notes" ]})
         :: [("docs", Sample.docs)])
      (Sample.watcher (Sample.command_line None)) []
    = (Raise e, [] ++ map Print ms).
Proof.
  apply (missing_searches_is_fatal Sample.glob "watch.yaml"
           [("build", Sample.build)] [("docs", Sample.docs)] "notes"
           {[ "commands" := VStr "make notes" ]}
           (Sample.watcher (Sample.command_line None)) []);
    [discriminate|reflexivity|reflexivity].
Defined.

(** *** The key of a definition *)

Lemma append_inv_head (a b c : string) : a +:+ b = a +:+ c → b = c.
Proof.
  induction a as [|x a IH]; [done|]. rewrite !append_cons. intros [= ?]. auto.
Qed.

Lemma colon_free_cons c s :
  colon_free (String c s) → c ≠ ":"%char ∧ colon_free s.
Proof.
  unfold colon_free. simpl. intros [Hc Hs]%orb_false_iff. split; [|done].
  intros ->. by rewrite bool_decide_eq_true_2 in Hc.
Qed.

Lemma colon_splits s1 :
  ∀ s2 n1 n2,
    colon_free s1 → colon_free s2 →
    s1 +:+ ":" +:+ n1 = s2 +:+ ":" +:+ n2 → s1 = s2 ∧ n1 = n2.
Proof.
  induction s1 as [|c s1 IH]; intros [|c' s2] n1 n2 H1 H2; rewrite ?append_cons.
  - by intros [= ?].
  - intros [= <- _]. by destruct (colon_free_cons _ _ H2).
  - intros [= -> _]. by destruct (colon_free_cons _ _ H1).
  - intros [= <- Hrest].
    destruct (colon_free_cons _ _ H1) as [_ H1'].
    destruct (colon_free_cons _ _ H2) as [_ H2'].
    destruct (IH s2 n1 n2 H1' H2' Hrest) as [-> ->]. done.
Qed.

(** X13. The key tells the definitions apart: two definitions of one source
    have the same key only if they have the same name, and two definitions
    of sources whose names have no colon have the same key only if they are
    of the same source and have the same name. *)
Theorem key_identifies_definition
    (dflt1 dflt2 d1 d2 : gmap string value) (s1 s2 n1 n2 : string) :
  key_of (merge_defn dflt1 s1 n1 d1) = key_of (merge_defn dflt2 s2 n2 d2) →
  (s1 = s2 → n1 = n2)
  ∧ (colon_free s1 → colon_free s2 → s1 = s2 ∧ n1 = n2).
Proof.
  destruct (merge_defn_named dflt1 s1 n1 d1) as [_ Hk1].
  destruct (merge_defn_named dflt2 s2 n2 d2) as [_ Hk2].
  rewrite (key_of_lookup _ _ Hk1), (key_of_lookup _ _ Hk2). intros [= Hkey].
  split.
  - intros ->. apply append_inv_head in Hkey. by apply (append_inv_head ":").
  - intros H1 H2. by apply (colon_splits s1 s2).
Qed.

Lemma key_identifies_definition_witness :
  ("watch.yaml" = "watch.yaml" → "build" = "build")
  ∧ (colon_free "watch.yaml" → colon_free "watch.yaml"
     → "watch.yaml" = "watch.yaml" ∧ "build" = "build").
Proof.
  apply (key_identifies_definition Sample.defaults ∅ Sample.build Sample.docs
           "watch.yaml" "watch.yaml" "build" "build").
  reflexivity.
Defined.

(** With a colon in the name of a source two definitions can share a key,
    and then only the first one met fires. *)
Example keys_can_collide :
  key_of (merge_defn ∅ "a:b" "c" Sample.build)
  = key_of (merge_defn ∅ "a" "b:c" Sample.docs).
Proof. reflexivity. Qed.

(** *** What a cycle takes from the one before *)

Section Stale.

Variable sh : list io → string → Z.
Variable iglob : string → list string.
Variable path_exists : string → bool.
Variable load_yaml : string → option (list (string * gmap string value)).
Variable observer_start : list string → bool.

(** X14. A cycle takes nothing from the watcher but the command line: the
    handlers, the recorded paths, the scheduled paths and the defaults
    left by an earlier cycle have no effect on what the cycle does or
    returns, so a change recorded in one cycle never fires in the next. *)
Theorem cycle_depends_on_command_line_only
    (deliveries : list (nat * ChangeEvent)) (self1 self2 : FilesWatcher)
    (st : list io) :
  args self1 = args self2 →
  args_paths (args self1) ≠ [] →
  start sh iglob path_exists load_yaml observer_start deliveries self1 st
  = start sh iglob path_exists load_yaml observer_start deliveries self2 st.
Proof.
  destruct self1 as [a1 hs1 d1 ws1], self2 as [a2 hs2 d2 ws2]. simpl.
  intros <- Hpaths. unfold start, _setup_observers, print, emit.
  unfold mbind at 1 2 3 6 7 8, M_bind. simpl.
  destruct (args_paths a1) as [|f files]; [done|]. simpl.
  destruct (load_yaml f); [|done]. unfold _start_monitors. done.
Qed.

End Stale.

Lemma cycle_depends_on_command_line_only_witness :
  start Sample.shell Sample.glob Sample.file_exists Sample.yaml
    Sample.observer_ok Sample.deliveries (Sample.watching None) []
  = start Sample.shell Sample.glob Sample.file_exists Sample.yaml
      Sample.observer_ok Sample.deliveries
      (Sample.watcher (Sample.command_line None)) [].
Proof.
  apply (cycle_depends_on_command_line_only Sample.shell Sample.glob
           Sample.file_exists Sample.yaml Sample.observer_ok Sample.deliveries
           (Sample.watching None) (Sample.watcher (Sample.command_line None)) []);
    [reflexivity|discriminate].
Defined.

(** *** Failing commands do not stop the loop *)

Section AlwaysReturns.

Variable sh : list io → string → Z.

Lemma run_pipeline_returns skip k defn st :
  (∃ n, defn !! "__name" = Some (VStr n)) → typed_hooks defn →
  ∃ st', run_pipeline sh skip k defn st = (Ok tt, st').
Proof.
  intros [n Hn] Htyped.
  assert (∀ hook st0, hook ∈ pipeline_hooks →
            ∃ rc st1, _run_commands sh defn hook st0 = (Ok rc, st1)) as Hcall.
  { intros hook st0 Hin. destruct (Htyped hook Hin) as [l Hl].
    destruct (run_commands_named sh defn hook n l st0 Hn Hl) as (j & rc & -> & _).
    eauto. }
  assert ("skipped" ∈ pipeline_hooks ∧ "commands" ∈ pipeline_hooks
          ∧ "completed" ∈ pipeline_hooks ∧ "error" ∈ pipeline_hooks)
    as (Hs & Hc & Hd & He).
  { unfold pipeline_hooks. repeat split; repeat constructor. }
  unfold run_pipeline, print. destruct skip.
  - destruct (Hcall "skipped" st Hs) as (rc & st1 & Hr).
    rewrite (bind_ok _ _ _ _ _ Hr). by eexists.
  - rewrite emit_bind.
    destruct (Hcall "commands" (st ++ [Print ("Executing " +:+ k)]) Hc)
      as (rc & st1 & Hr).
    rewrite (bind_ok _ _ _ _ _ Hr).
    destruct (Hcall (if bool_decide (rc = 0%Z) then "completed" else "error") st1)
      as (rc' & st2 & Hr'); [by case_bool_decide|].
    rewrite (bind_ok _ _ _ _ _ Hr'). by eexists.
Qed.

(** X15. No exit code stops the loop: when the definitions of the changed
    handlers have their name and key and their hook lists are strings or
    lists of strings, the loop over the handlers returns for every shell,
    having entered the pipeline of every key that changed. *)
Theorem loop_returns_whatever_commands_do
    (skip : bool) (hs : list MonitorAnyFileChange) (T : gset string)
    (st : list io) :
  Forall (λ h, has_change h = true →
               named_handler h ∧ typed_hooks (monitor_defn h)) hs →
  ∃ T' tr,
    for_handlers sh skip hs T st = (Ok T', st ++ tr)
    ∧ ∀ k, k ∈ T' ↔ k ∈ T ∨ k ∈ changed_keys hs.
Proof.
  intros Hall.
  assert (∃ T' st', for_handlers sh skip hs T st = (Ok T', st'))
    as (T' & st' & Hrun).
  { revert T st. induction Hall as [|h hs Hh _ IH]; intros T st; simpl.
    { by eexists _, _. }
    destruct (has_change h); [|apply IH].
    destruct (Hh eq_refl) as [[Hn [k Hk]] Htyped]. rewrite Hk.
    case_bool_decide; [apply IH|].
    destruct (run_pipeline_returns skip k (monitor_defn h) st Hn Htyped)
      as [st1 Hp].
    rewrite (bind_ok _ _ _ _ _ Hp). apply IH. }
  destruct (for_handlers_entries sh _ _ _ _ _ _ Hrun) as (tr & -> & _ & HT & _).
  by exists T', tr.
Qed.

End AlwaysReturns.

Lemma loop_returns_whatever_commands_do_witness :
  let hs := [add_file "docs/index.md"
               (new_handler "docs" Sample.docs_defn Sample.docs_search)] in
  ∃ T' tr,
    for_handlers Sample.shell false hs ∅ [] = (Ok T', [] ++ tr)
    ∧ ∀ k, k ∈ T' ↔ k ∈ (∅ : gset string) ∨ k ∈ changed_keys hs.
Proof.
  intros hs.
  apply (loop_returns_whatever_commands_do Sample.shell false hs ∅ []).
  constructor; [|constructor]. intros _. split.
  - split; eexists; reflexivity.
  - intros hook Hin. unfold pipeline_hooks in Hin.
    repeat (apply elem_of_cons in Hin as [->|Hin]; [eexists; reflexivity|]).
    by apply elem_of_nil in Hin.
Defined.

(** ** C6: the cycle under the skip file *)

Lemma filter_not_in_empty (T : gset string) (l : list string) :
  T = ∅ → filter (λ k, k ∉ T) l = l.
Proof.
  intros ->. induction l as [|k l IH]; [done|].
  rewrite filter_cons_True by apply not_elem_of_empty. by rewrite IH.
Qed.

Section SkipFileCycle.

Variable sh : list io → string → Z.
Variable iglob : string → list string.
Variable path_exists : string → bool.
Variable load_yaml : string → option (list (string * gmap string value)).
Variable observer_start : list string → bool.

Lemma for_commands_unnamed_returns defn cmds st rc st' :
  (∀ n, defn !! "__name" ≠ Some (VStr n)) →
  for_commands sh defn cmds st = (Ok rc, st') → rc = 0%Z ∧ st' = st.
Proof.
  intros Hn. destruct cmds as [|c cmds]; simpl; [by intros [= <- <-]|].
  destruct (defn !! "__name") as [[n| | |]|]; try done.
  by destruct (Hn n).
Qed.

(** A call of [_run_commands] that returns has run the commands of the key
    in order, up to the first that failed, and returns its exit code. *)
Lemma run_commands_returns defn key st rc st' :
  _run_commands sh defn key st = (Ok rc, st') →
  ∃ k, st' = st ++ run_block defn key k
       ∧ stops_at_first_failure sh (st ++ [Call defn key])
                                (shell_commands defn key) k rc.
Proof.
  intros Hrun.
  assert ((∃ n, defn !! "__name" = Some (VStr n))
          ∨ ¬ (∃ n, defn !! "__name" = Some (VStr n))) as [[n Hn]|Hno].
  { destruct (defn !! "__name") as [[n| | |]|]; [by left; exists n|..];
      right; intros [? ?]; congruence. }
  - destruct (hook_list defn key) as [l|] eqn:Hl.
    + destruct (run_commands_named sh defn key n l st Hn Hl)
        as (k & rc' & Hr & Hstop).
      rewrite Hr in Hrun. injection Hrun as <- <-. by exists k.
    + unfold hook_list in Hl. unfold _run_commands in Hrun.
      rewrite emit_bind in Hrun.
      by destruct (defn !! key) as [[c|cs|[|s ss]|ks]|]; simplify_eq.
  - assert (∀ n, defn !! "__name" ≠ Some (VStr n)) as Hno'.
    { intros n Hn. apply Hno. by exists n. }
    destruct (run_commands_unnamed sh defn key st Hno') as (Hsc & _).
    exists 0. unfold run_block. rewrite Hsc. simpl.
    unfold _run_commands in Hrun. rewrite emit_bind in Hrun.
    assert (rc = 0%Z ∧ st' = st ++ [Call defn key]) as [-> ->].
    { destruct (defn !! key) as [[c|cs|[|s ss]|ks]|];
        first [ by injection Hrun as <- <-
              | by apply (for_commands_unnamed_returns _ _ _ _ _ Hno') in Hrun
              | done ]. }
    split; [done|apply stops_nil].
Qed.

(** With the skip file, a loop that returns has called [skipped] once for
    each key of the changed handlers not yet triggered, in the order of
    their first handler, and each call ran its list up to the first
    command that failed. *)
Lemma for_handlers_skipped_runs hs :
  ∀ T st T' st',
    for_handlers sh true hs T st = (Ok T', st') →
    ∃ runs, st' = st ++ skipped_blocks runs
      ∧ map (λ r : gmap string value * nat, key_of r.1) runs
        = map Some (filter (λ k, k ∉ T) (first_occurrences (changed_keys hs)))
      ∧ blocks_run sh "skipped" st runs
      ∧ ∀ d k, (d, k) ∈ runs →
               ∃ h, h ∈ hs ∧ has_change h = true ∧ monitor_defn h = d.
Proof.
  induction hs as [|h hs IH]; intros T st T' st'; simpl.
  { intros [= <- <-]. exists []. simpl. rewrite app_nil_r.
    split; [done|]. split; [done|]. split; [done|].
    intros d k Hin. by apply elem_of_nil in Hin. }
  assert (∀ runs : list (gmap string value * nat),
            (∀ d k, (d, k) ∈ runs →
               ∃ h', h' ∈ hs ∧ has_change h' = true ∧ monitor_defn h' = d) →
            ∀ d k, (d, k) ∈ runs →
               ∃ h', h' ∈ h :: hs ∧ has_change h' = true ∧ monitor_defn h' = d)
    as Hfurther.
  { intros runs Ho d k Hin. destruct (Ho d k Hin) as (h' & ? & ? & ?).
    exists h'. split; [by apply elem_of_cons; right|done]. }
  rewrite changed_keys_cons.
  destruct (has_change h) eqn:Hch; simpl.
  2:{ intros Hrun. destruct (IH _ _ _ _ Hrun) as (runs & -> & Hk & Hb & Ho).
      exists runs. split; [done|]. split; [done|]. split; [done|]. eauto. }
  destruct (monitor_defn h !! "__key") as [[k|?|?|?]|] eqn:Hkey; try done.
  rewrite (key_of_lookup _ _ Hkey). simpl.
  case_bool_decide as HkT.
  - intros Hrun. destruct (IH _ _ _ _ Hrun) as (runs & -> & Hk & Hb & Ho).
    exists runs. split; [done|]. split; [|split; [done|eauto]].
    rewrite filter_cons_False by (intros Hn; by apply Hn).
    rewrite list_filter_filter, Hk. f_equal. apply list_filter_iff.
    intros k'. split; [|tauto]. intros Hk'. split; [done|]. by intros ->.
  - unfold run_pipeline, mbind, M_bind.
    destruct (_run_commands sh (monitor_defn h) "skipped" st)
      as [[rc|e] st2] eqn:Hc; [|done].
    simpl. intros Hrun.
    destruct (run_commands_returns _ _ _ _ _ Hc) as (j & -> & Hstop).
    destruct (IH _ _ _ _ Hrun) as (runs & -> & Hk & Hb & Ho).
    exists ((monitor_defn h, j) :: runs).
    split; [|split; [|split]].
    + change (skipped_blocks ((monitor_defn h, j) :: runs))
        with (run_block (monitor_defn h) "skipped" j ++ skipped_blocks runs).
      by rewrite app_assoc.
    + simpl. rewrite (key_of_lookup _ _ Hkey).
      rewrite filter_cons_True by done. simpl. f_equal.
      rewrite Hk. f_equal.
      rewrite list_filter_filter. apply list_filter_iff.
      intros k'. rewrite elem_of_union, elem_of_singleton. tauto.
    + simpl. split; [by exists rc|done].
    + intros d k'. rewrite elem_of_cons. intros [[= -> ->]|Hin]; [|eauto].
      exists h. split; [apply list_elem_of_here|done].
Qed.

(** The loop returns on handlers whose definitions have their name, their
    key and hook lists of strings, whatever the commands return. *)
Lemma for_handlers_returns skip hs :
  Forall (λ h, has_change h = true →
               named_handler h ∧ typed_hooks (monitor_defn h)) hs →
  ∀ T st, ∃ T' st', for_handlers sh skip hs T st = (Ok T', st').
Proof.
  intros Hall. induction Hall as [|h hs Hh _ IH]; intros T st; simpl.
  { by eexists _, _. }
  destruct (has_change h); [|apply IH].
  destruct (Hh eq_refl) as [[Hn [k Hk]] Htyped]. rewrite Hk.
  case_bool_decide; [apply IH|].
  destruct (run_pipeline_returns sh true k (monitor_defn h) st Hn Htyped)
    as [st1 Hp1].
  destruct (run_pipeline_returns sh false k (monitor_defn h) st Hn Htyped)
    as [st2 Hp2].
  destruct skip.
  - rewrite (bind_ok _ _ _ _ _ Hp1). apply IH.
  - rewrite (bind_ok _ _ _ _ _ Hp2). apply IH.
Qed.

(** The loop over the handlers when the skip file was found. *)
Lemma run_triggered_skipped self st :
  has_skip_file path_exists (args self) = true →
  ∃ r runs,
    run_triggered sh path_exists self st = (r, st ++ skipped_blocks runs)
    ∧ (∀ d k, (d, k) ∈ runs →
         ∃ h, h ∈ event_handlers self ∧ has_change h = true
              ∧ monitor_defn h = d)
    ∧ (∀ T key, r = Ok T → key ∈ T →
         hooks_for key (skipped_blocks runs) = ["skipped"])
    ∧ (∀ T, r = Ok T →
         map (λ r : gmap string value * nat, key_of r.1) runs
         = map Some (first_occurrences (changed_keys (event_handlers self)))
         ∧ blocks_run sh "skipped" st runs)
    ∧ (Forall (λ h, has_change h = true →
                    named_handler h ∧ typed_hooks (monitor_defn h))
              (event_handlers self) →
       ∃ T, r = Ok T).
Proof.
  intros Hskip. unfold run_triggered. rewrite Hskip.
  assert (∀ r runs,
            for_handlers sh true (event_handlers self) ∅ st
            = (r, st ++ skipped_blocks runs) →
            ∀ T key, r = Ok T → key ∈ T →
              hooks_for key (skipped_blocks runs) = ["skipped"]) as Honce.
  { intros r runs Hrun T key -> HT.
    destruct (for_handlers_once sh true (event_handlers self) ∅ st)
      as (r' & tr & Hrun' & Hkeys).
    rewrite Hrun in Hrun'. injection Hrun' as <- <-%app_inv_head.
    destruct (Hkeys key) as (Hone & _ & Hfinal).
    pose proof (hooks_for_skipped_blocks key runs) as Hall.
    assert (hooks_for key (skipped_blocks runs) ≠ []) as Hnonempty.
    { destruct (Hfinal T eq_refl) as [Hin _].
      destruct (Hin HT) as [Hempty|?]; [by apply elem_of_empty in Hempty|done]. }
    unfold one_run in Hone.
    repeat (apply elem_of_cons in Hone as [Hone|Hone]; [try done|]);
      try by apply elem_of_nil in Hone.
    all: rewrite Hone in Hall; by inversion Hall. }
  destruct (for_handlers sh true (event_handlers self) ∅ st)
    as [[T|e] st'] eqn:Hrun.
  - destruct (for_handlers_skipped_runs _ _ _ _ _ Hrun)
      as (runs & -> & Hkeys & Hblocks & Horigin).
    rewrite (filter_not_in_empty ∅) in Hkeys by done.
    exists (Ok T), runs. split; [done|]. split; [done|].
    split; [by apply Honce|]. split; [|by eexists].
    by intros T' _.
  - destruct (for_handlers_skipped sh (event_handlers self) ∅ st)
      as (r & runs & Hrun' & Horigin).
    rewrite Hrun in Hrun'. injection Hrun' as <- ->.
    exists (Raise e), runs. split; [done|]. split; [done|].
    split; [by intros T key [=]|]. split; [by intros T [=]|].
    intros Hall.
    destruct (for_handlers_returns true _ Hall ∅ st) as (T & st1 & Hok).
    rewrite Hrun in Hok. discriminate Hok.
Qed.

(** C6. When the skip file is set and exists at the one check of the cycle,
    the [skipped] list is executed for every definition that triggered and
    nothing else is: the trace of the loop is made of calls of
    [_run_commands] on [skipped], each for the definition of a handler that
    changed; when the loop returns there is one such call for every key of
    the changed handlers, in the order of their first handler, every call
    ran its list in order up to the first command that failed, and every
    key that fired got exactly that one call; the loop does return when the
    changed definitions have their name, their key and hook lists of
    strings; and the whole cycle leaves only what the set-up printed and
    these calls, so no [commands], [completed] or [error] list is
    executed. *)
Theorem skip_file_runs_skipped_only
    (deliveries : list (nat * ChangeEvent)) (self : FilesWatcher)
    (st : list io) (f : string) :
  skip_file (args self) = Some f → f ≠ "" → path_exists f = true →
  (∃ r runs,
     run_triggered sh path_exists self st = (r, st ++ skipped_blocks runs)
     ∧ (∀ d k, (d, k) ∈ runs →
          ∃ h, h ∈ event_handlers self ∧ has_change h = true
               ∧ monitor_defn h = d)
     ∧ (∀ T key, r = Ok T → key ∈ T →
          hooks_for key (skipped_blocks runs) = ["skipped"])
     ∧ (∀ T, r = Ok T →
          map (λ r : gmap string value * nat, key_of r.1) runs
          = map Some (first_occurrences (changed_keys (event_handlers self)))
          ∧ blocks_run sh "skipped" st runs)
     ∧ (Forall (λ h, has_change h = true →
                     named_handler h ∧ typed_hooks (monitor_defn h))
               (event_handlers self) →
        ∃ T, r = Ok T))
  ∧ (∃ r ms runs,
       start sh iglob path_exists load_yaml observer_start deliveries self st
       = (r, st ++ map Print ms ++ skipped_blocks runs)
       ∧ ∀ self'', r = Ok self'' →
           map (λ r : gmap string value * nat, key_of r.1) runs
           = map Some (first_occurrences (changed_keys (event_handlers self'')))
           ∧ blocks_run sh "skipped" (st ++ map Print ms) runs).
Proof.
  intros Hf Hne Hex. split.
  - apply run_triggered_skipped. by apply (has_skip_file_true _ _ f).
  - destruct (start_cases sh iglob path_exists load_yaml observer_start
                deliveries self st) as (ms & [(e & ->)|(self'' & Ha & ->)]).
    + exists (Raise e), ms, []. simpl. rewrite app_nil_r. split; [done|].
      by intros self'' [=].
    + destruct (run_triggered_skipped self'' (st ++ map Print ms))
        as (r & runs & -> & _ & _ & Hruns & _).
      { rewrite Ha. by apply (has_skip_file_true _ _ f). }
      eexists _, ms, runs. simpl. split; [by rewrite app_assoc|].
      intros self3 Hr. destruct r as [T|e]; [|done].
      injection Hr as <-. by apply (Hruns T).
Qed.

End SkipFileCycle.

Lemma skip_file_runs_skipped_only_witness :
  (∃ r runs,
     run_triggered Sample.shell Sample.file_exists
       (Sample.watching (Some "tmp/skip")) []
     = (r, [] ++ skipped_blocks runs)
     ∧ (∀ d k, (d, k) ∈ runs →
          ∃ h, h ∈ event_handlers (Sample.watching (Some "tmp/skip"))
               ∧ has_change h = true ∧ monitor_defn h = d)
     ∧ (∀ T key, r = Ok T → key ∈ T →
          hooks_for key (skipped_blocks runs) = ["skipped"])
     ∧ (∀ T, r = Ok T →
          map (λ r : gmap string value * nat, key_of r.1) runs
          = map Some (first_occurrences
                        (changed_keys
                           (event_handlers (Sample.watching (Some "tmp/skip")))))
          ∧ blocks_run Sample.shell "skipped" [] runs)
     ∧ (Forall (λ h, has_change h = true →
                     named_handler h ∧ typed_hooks (monitor_defn h))
               (event_handlers (Sample.watching (Some "tmp/skip"))) →
        ∃ T, r = Ok T))
  ∧ (∃ r ms runs,
       start Sample.shell Sample.glob Sample.file_exists Sample.yaml
         Sample.observer_ok Sample.deliveries
         (Sample.watching (Some "tmp/skip")) []
       = (r, [] ++ map Print ms ++ skipped_blocks runs)
       ∧ ∀ self'', r = Ok self'' →
           map (λ r : gmap string value * nat, key_of r.1) runs
           = map Some (first_occurrences (changed_keys (event_handlers self'')))
           ∧ blocks_run Sample.shell "skipped" ([] ++ map Print ms) runs).
Proof.
  apply (skip_file_runs_skipped_only Sample.shell Sample.glob
           Sample.file_exists Sample.yaml Sample.observer_ok Sample.deliveries
           (Sample.watching (Some "tmp/skip")) [] "tmp/skip");
    [reflexivity|discriminate|reflexivity].
Defined.

(** On the handlers the sample cycle leaves, the loop under the skip file
    calls [skipped] for the two keys that changed, in their order, and runs
    the [skipped] command of each. *)
Example skip_file_loop_returns :
  let r := run_triggered Sample.shell Sample.file_exists
             (Sample.watching (Some "tmp/skip")) [] in
  map (λ c : gmap string value * string, key_of c.1) (calls r.2)
  = map Some (first_occurrences
                (changed_keys
                   (event_handlers (Sample.watching (Some "tmp/skip")))))
  ∧ map snd (calls r.2) = ["skipped"; "skipped"]
  ∧ execs r.2 = ["echo build skipped"; "echo docs skipped"].
Proof. by vm_compute. Qed.
